(** * Shallow embedding of the cuDNN autotune selector (gpu_utils.cc) and of
      the GPU graph-exec cache (gpu_executable.h), with the properties the
      specification states about them. *)

From Stdlib Require Import ZArith List Lia Bool String.
From stdpp Require Import base option list gmap.

Local Open Scope Z_scope.

(** ** Part I.  Data model *)

(** [google.protobuf.Duration]: the wire form of a measured run time. *)
Record Duration := { seconds : Z; nanos : Z }.

(** [tensorflow::Status], restricted to the codes the two files produce. *)
Inductive Status :=
| OK
| NotFound (msg : string).

(** The [failure] sub-message that [CheckRedzones] fills in. *)
Inductive FailureKind := UNKNOWN | REDZONE_MODIFIED | WRONG_RESULT.

Record Failure :=
  { kind : FailureKind; msg : string; buffer_address : Z }.

(** [AutotuneResult.conv()] *)
Record ConvKey := { algorithm : Z; tensor_ops_enabled : bool }.

Module AutotuneResult.
Record t :=
  { conv : ConvKey;
    failure : option Failure;
    scratch_bytes : Z;
    run_time : Duration }.
Definition has_failure (r : t) : bool :=
  match failure r with Some _ => true | None => false end.
Definition set_failure (f : Failure) (r : t) : t :=
  {| conv := conv r; failure := Some f;
     scratch_bytes := scratch_bytes r; run_time := run_time r |}.
End AutotuneResult.

Module AutotuneExecutionPlanResult.
Record t :=
  { failure : option Failure;
    scratch_bytes : Z;
    run_time : Duration }.
Definition has_failure (r : t) : bool :=
  match failure r with Some _ => true | None => false end.
Definition set_failure (f : Failure) (r : t) : t :=
  {| failure := Some f;
     scratch_bytes := scratch_bytes r; run_time := run_time r |}.
End AutotuneExecutionPlanResult.

(** [se::dnn::AlgorithmDesc] and [se::dnn::AlgorithmConfig]: the config holds
    two optional descriptors, written by [set_algorithm] and
    [set_algorithm_no_scratch]. *)
Record AlgorithmDesc := { algo_id : Z; tensor_ops : bool }.

Record AlgorithmConfig :=
  { algorithm_ : option AlgorithmDesc;
    algorithm_no_scratch_ : option AlgorithmDesc }.

Definition set_algorithm (val : AlgorithmDesc) (c : AlgorithmConfig) :=
  {| algorithm_ := Some val;
     algorithm_no_scratch_ := algorithm_no_scratch_ c |}.

Definition set_algorithm_no_scratch (val : AlgorithmDesc) (c : AlgorithmConfig) :=
  {| algorithm_ := algorithm_ c;
     algorithm_no_scratch_ := Some val |}.

Definition desc_of (k : ConvKey) : AlgorithmDesc :=
  {| algo_id := algorithm k; tensor_ops := tensor_ops_enabled k |}.

(** ** Part II.  The selector *)

(** [std::min_element] over a container, iterators being positions:
    [begin()] is 0 and [end()] is the length.  The scan keeps the current
    smallest and replaces it only when a later element compares strictly
    less. *)
Fixpoint min_element_loop {A} (comp : A -> A -> bool)
    (smallest : nat * A) (first : nat) (rest : list A) : nat * A :=
  match rest with
  | [] => smallest
  | y :: rest' =>
      min_element_loop comp
        (if comp y (snd smallest) then (first, y) else smallest)
        (S first) rest'
  end.

Definition c_min_element {A} (c : list A) (comp : A -> A -> bool) : nat :=
  match c with
  | [] => 0%nat
  | x :: rest => fst (min_element_loop comp (0%nat, x) 1%nat rest)
  end.

(** [results[i]] with an [int] index; [None] is an access outside the span. *)
Definition span_at {A} (results : list A) (i : Z) : option A :=
  if i <? 0 then None else results !! Z.to_nat i.

Definition INT_MAX : Z := 2147483647.

Section Selector.

(** [proto_utils::FromDurationProto] followed by the order of
    [absl::Duration]: proto_utils.h, which defines it, is not included
    here, so the conversion is a parameter; [<] on durations is [<] on the
    values it yields. *)
Variable FromDurationProto : Duration -> Z.

Definition compare_run_times (lhs rhs : AutotuneResult.t) : bool :=
  FromDurationProto (AutotuneResult.run_time lhs)
  <? FromDurationProto (AutotuneResult.run_time rhs).

(** [BestCudnnConvAlgorithm].  [RequireCuDNNDeterminism] is the value of
    [se::cuda::RequireCuDNNDeterminism()]; [algo] is the caller's config,
    returned as written.  [None] stands for dereferencing an iterator that
    does not designate an element. *)
Definition BestCudnnConvAlgorithm (RequireCuDNNDeterminism : bool)
    (results : list AutotuneResult.t) (algo : AlgorithmConfig)
  : option (Status * AlgorithmConfig) :=
  let filtered_results :=
    List.filter (fun result => negb (AutotuneResult.has_failure result))
                results in
  match filtered_results with
  | [] => Some (NotFound "No algorithm worked!", algo)
  | _ :: _ =>
    let filtered_results_no_scratch :=
      List.filter (fun result => AutotuneResult.scratch_bytes result =? 0)
                  filtered_results in
    let selected_result :=
      if negb RequireCuDNNDeterminism
      then c_min_element filtered_results compare_run_times
      else 0%nat in
    let selected_result_no_scratch :=
      if negb RequireCuDNNDeterminism
      then c_min_element filtered_results_no_scratch compare_run_times
      else 0%nat in
    match filtered_results !! selected_result with
    | None => None
    | Some sel =>
      let algo1 := set_algorithm (desc_of (AutotuneResult.conv sel)) algo in
      if Nat.eqb selected_result_no_scratch
                 (length filtered_results_no_scratch)
      then Some (OK, algo1)
      else
        match filtered_results_no_scratch !! selected_result_no_scratch with
        | None => None
        | Some sel_ns =>
          Some (OK, set_algorithm_no_scratch
                      (desc_of (AutotuneResult.conv sel_ns)) algo1)
        end
    end
  end.

(** The comparison [run_time(results[i]) < run_time(results[j])] of the
    plan loop; [j] is only read when the guard before it let it through. *)
Definition plan_faster (results : list AutotuneExecutionPlanResult.t)
    (r_i : AutotuneExecutionPlanResult.t) (j : Z) : option bool :=
  match span_at results j with
  | None => None
  | Some r_j =>
      Some (FromDurationProto (AutotuneExecutionPlanResult.run_time r_i)
            <? FromDurationProto (AutotuneExecutionPlanResult.run_time r_j))
  end.

(** [cur == -1 or run_time(results[i]) < run_time(results[cur])],
    evaluated left to right. *)
Definition plan_better (results : list AutotuneExecutionPlanResult.t)
    (r_i : AutotuneExecutionPlanResult.t) (cur : Z) : option bool :=
  if cur =? -1 then Some true else plan_faster results r_i cur.

(** The [for (int i = 0; i < results.size(); i++)] loop; [n] counts the
    iterations still to run.  [None] stands for undefined behaviour: an
    access outside the span, or [i++] overflowing [int]. *)
Fixpoint plan_loop (results : list AutotuneExecutionPlanResult.t)
    (n : nat) (i : Z) (idx idx_no_scratch : Z) : option (Z * Z) :=
  match n with
  | O => Some (idx, idx_no_scratch)
  | S n' =>
    match span_at results i with
    | None => None
    | Some r_i =>
      let next idx' ns' :=
        if INT_MAX <? i + 1 then None
        else plan_loop results n' (i + 1) idx' ns' in
      if negb (AutotuneExecutionPlanResult.has_failure r_i) then
        match plan_better results r_i idx with
        | None => None
        | Some b1 =>
          let idx' := if b1 then i else idx in
          if AutotuneExecutionPlanResult.scratch_bytes r_i =? 0 then
            match plan_better results r_i idx_no_scratch with
            | None => None
            | Some b2 => next idx' (if b2 then i else idx_no_scratch)
            end
          else next idx' idx_no_scratch
        end
      else next idx idx_no_scratch
    end
  end.

(** [BestCudnnConvExecutionPlan].  [idx0] and [idx_no_scratch0] are what
    [*idx] and [*idx_no_scratch] hold on entry; the result carries what
    they hold on return. *)
Definition BestCudnnConvExecutionPlan
    (results : list AutotuneExecutionPlanResult.t)
    (idx0 idx_no_scratch0 : Z) : option (Status * Z * Z) :=
  let idx := -1 in
  let idx_no_scratch := -1 in
  match plan_loop results (length results) 0 idx idx_no_scratch with
  | None => None
  | Some (idx, idx_no_scratch) =>
      if (idx =? -1) && (idx_no_scratch =? -1)
      then Some (NotFound "No execution plan worked!", idx, idx_no_scratch)
      else Some (OK, idx, idx_no_scratch)
  end.

End Selector.

(** ** Part III.  The graph-exec cache ([MutexedGraphExecCache]) *)

(** Every operation takes [exec_graph_cache_mu_] for its whole body, so each
    is one atomic transition of the record below.

    A [std::list] node has an identity of its own: an iterator designates a
    node, not a position, and erasing the node invalidates every iterator
    to it while iterators to other nodes stay valid.  Nodes are therefore
    pairs of an identity and the stored [void*]; identities come from a
    counter and are never handed out twice. *)
Inductive iterator :=
| It (node : nat)
| End.

#[global] Instance iterator_eq_dec : EqDecision iterator.
Proof. solve_decision. Defined.

Definition nullptr : Z := 0.

(** A call to [GpuDriver::DestroyExecutableGraph(context, exec)]. *)
Record DriverCall := { call_context : Z; call_exec : Z }.

Record MutexedGraphExecCache :=
  { cache_size_ : Z;
    gpu_context_ : Z;
    gpu_exec_graphs_ : list (nat * Z);
    gpu_key_to_exec_graphs_map_ : gmap Z iterator;
    (* identity of the next node the list allocates *)
    next_node_ : nat;
    (* the driver calls made so far, oldest first *)
    driver_calls_ : list DriverCall }.

Definition empty_cache : MutexedGraphExecCache :=
  {| cache_size_ := 0; gpu_context_ := nullptr; gpu_exec_graphs_ := [];
     gpu_key_to_exec_graphs_map_ := ∅; next_node_ := 0%nat;
     driver_calls_ := [] |}.

Definition with_graphs (l : list (nat * Z)) (c : MutexedGraphExecCache) :=
  {| cache_size_ := cache_size_ c; gpu_context_ := gpu_context_ c;
     gpu_exec_graphs_ := l;
     gpu_key_to_exec_graphs_map_ := gpu_key_to_exec_graphs_map_ c;
     next_node_ := next_node_ c; driver_calls_ := driver_calls_ c |}.

Definition with_map (m : gmap Z iterator) (c : MutexedGraphExecCache) :=
  {| cache_size_ := cache_size_ c; gpu_context_ := gpu_context_ c;
     gpu_exec_graphs_ := gpu_exec_graphs_ c;
     gpu_key_to_exec_graphs_map_ := m;
     next_node_ := next_node_ c; driver_calls_ := driver_calls_ c |}.

(** [std::list] primitives. *)
Definition push_front (v : Z) (c : MutexedGraphExecCache) :=
  {| cache_size_ := cache_size_ c; gpu_context_ := gpu_context_ c;
     gpu_exec_graphs_ := (next_node_ c, v) :: gpu_exec_graphs_ c;
     gpu_key_to_exec_graphs_map_ := gpu_key_to_exec_graphs_map_ c;
     next_node_ := S (next_node_ c); driver_calls_ := driver_calls_ c |}.

Definition back (c : MutexedGraphExecCache) : option (nat * Z) :=
  last (gpu_exec_graphs_ c).

Definition pop_back (c : MutexedGraphExecCache) :=
  with_graphs (removelast (gpu_exec_graphs_ c)) c.

Definition list_begin (c : MutexedGraphExecCache) : iterator :=
  match gpu_exec_graphs_ c with
  | [] => End
  | (n, _) :: _ => It n
  end.

Fixpoint node_value (l : list (nat * Z)) (n : nat) : option Z :=
  match l with
  | [] => None
  | (m, v) :: l' => if Nat.eqb m n then Some v else node_value l' n
  end.

(** [*it]: defined only for an iterator to a node that is in the list. *)
Definition deref (c : MutexedGraphExecCache) (it : iterator) : option Z :=
  match it with
  | End => None
  | It n => node_value (gpu_exec_graphs_ c) n
  end.

(** [std::find(begin, end, value)] *)
Fixpoint find_value (l : list (nat * Z)) (value : Z) : iterator :=
  match l with
  | [] => End
  | (n, v) :: l' => if v =? value then It n else find_value l' value
  end.

(** [list.remove(value)]: erases every node holding [value]. *)
Definition list_remove (value : Z) (c : MutexedGraphExecCache) :=
  with_graphs
    (List.filter (fun nv => negb (snd nv =? value)) (gpu_exec_graphs_ c)) c.

Definition DestroyExecutableGraph (context exec : Z)
    (c : MutexedGraphExecCache) :=
  {| cache_size_ := cache_size_ c; gpu_context_ := gpu_context_ c;
     gpu_exec_graphs_ := gpu_exec_graphs_ c;
     gpu_key_to_exec_graphs_map_ := gpu_key_to_exec_graphs_map_ c;
     next_node_ := next_node_ c;
     driver_calls_ :=
       driver_calls_ c ++ [{| call_context := context; call_exec := exec |}] |}.

(** [gpu_exec_graphs_.size() > cache_size_] compares a [size_t] with an
    [int64]: the capacity is converted to the unsigned 64-bit type first. *)
Definition to_uint64 (z : Z) : Z := z mod 2 ^ 64.

Definition over_capacity (c : MutexedGraphExecCache) : bool :=
  to_uint64 (cache_size_ c) <? Z.of_nat (length (gpu_exec_graphs_ c)).

(** The body of [if (size() > cache_size_) { ... }]: destroy the graph the
    back node holds, then pop that node. *)
Definition destroy_back (c : MutexedGraphExecCache) :=
  match back c with
  | Some (_, exec_graph) =>
      DestroyExecutableGraph (gpu_context_ c) exec_graph c
  | None => c
  end.

Definition evict_back (c : MutexedGraphExecCache) :=
  pop_back (destroy_back c).

(** [gpu_key_to_exec_graphs_map_[key] = gpu_exec_graphs_.begin()] *)
Definition index_begin (key : Z) (c : MutexedGraphExecCache) :=
  with_map (<[key := list_begin c]> (gpu_key_to_exec_graphs_map_ c)) c.

Definition update_cache (key : Z) (gpu_exec_graph : Z)
    (c : MutexedGraphExecCache) : MutexedGraphExecCache :=
  let c1 := push_front gpu_exec_graph c in
  let c2 := if over_capacity c1 then evict_back c1 else c1 in
  index_begin key c2.

(** [get_exec_graph]: the returned pointer and the cache afterwards; [None]
    stands for undefined behaviour, here dereferencing an iterator that
    designates no node of the list. *)
Definition get_exec_graph (key : Z) (c : MutexedGraphExecCache)
  : option (Z * MutexedGraphExecCache) :=
  match gpu_key_to_exec_graphs_map_ c !! key with
  | Some pos =>
      match deref c pos with
      | None => None
      | Some value =>
          match find_value (gpu_exec_graphs_ c) value with
          | End =>
              Some (nullptr,
                    with_map (delete key (gpu_key_to_exec_graphs_map_ c)) c)
          | It _ =>
              match deref c pos with
              | None => None
              | Some gpu_exec_graph =>
                  let c1 := list_remove gpu_exec_graph c in
                  let c2 := push_front gpu_exec_graph c1 in
                  Some (gpu_exec_graph, index_begin key c2)
              end
          end
      end
  | None => Some (nullptr, c)
  end.

Definition set_cache_size (cache_size : Z) (c : MutexedGraphExecCache) :=
  {| cache_size_ := cache_size; gpu_context_ := gpu_context_ c;
     gpu_exec_graphs_ := gpu_exec_graphs_ c;
     gpu_key_to_exec_graphs_map_ := gpu_key_to_exec_graphs_map_ c;
     next_node_ := next_node_ c; driver_calls_ := driver_calls_ c |}.

Definition set_gpu_context (gpu_context : Z) (c : MutexedGraphExecCache) :=
  {| cache_size_ := cache_size_ c; gpu_context_ := gpu_context;
     gpu_exec_graphs_ := gpu_exec_graphs_ c;
     gpu_key_to_exec_graphs_map_ := gpu_key_to_exec_graphs_map_ c;
     next_node_ := next_node_ c; driver_calls_ := driver_calls_ c |}.

Definition get_current_cache_size (c : MutexedGraphExecCache) : nat :=
  length (gpu_exec_graphs_ c).

(** Sequences of cache operations. *)
Inductive CacheOp :=
| Put (key : Z) (gpu_exec_graph : Z)
| Get (key : Z).

Definition cache_step (c : MutexedGraphExecCache) (o : CacheOp)
  : option MutexedGraphExecCache :=
  match o with
  | Put key g => Some (update_cache key g c)
  | Get key => snd <$> get_exec_graph key c
  end.

Fixpoint cache_run (ops : list CacheOp) (c : MutexedGraphExecCache)
  : option MutexedGraphExecCache :=
  match ops with
  | [] => Some c
  | o :: ops' =>
      match cache_step c o with
      | None => None
      | Some c' => cache_run ops' c'
      end
  end.

(** The index entry of [key] is live when its iterator designates a node of
    the list, stale when it does not. *)
Definition live_key (c : MutexedGraphExecCache) (key : Z) : Prop :=
  exists pos, gpu_key_to_exec_graphs_map_ c !! key = Some pos
              /\ is_Some (deref c pos).

Definition stale_key (c : MutexedGraphExecCache) (key : Z) : Prop :=
  exists pos, gpu_key_to_exec_graphs_map_ c !! key = Some pos
              /\ deref c pos = None.

Definition index_consistent (c : MutexedGraphExecCache) : Prop :=
  forall key pos, gpu_key_to_exec_graphs_map_ c !! key = Some pos ->
                  is_Some (deref c pos).

(** ** Part IV.  Best-effort redzone checks *)

Record DeviceMemoryBase := { opaque : Z; size : Z }.

Inductive StatusOr (A : Type) :=
| ValueOrDie (a : A)
| ErrorStatus (error_message : string).
Arguments ValueOrDie {A} a.
Arguments ErrorStatus {A} error_message.

(** [se::cuda::RedzoneAllocator::RedzoneCheckStatus] *)
Record RedzoneCheckStatus :=
  { rz_ok : bool; RedzoneFailureMsg : string; user_buffer_address : Z }.

(** The lines the two functions can write to the log. *)
Inductive LogLine :=
| WarnRedzoneAllocationFailed
    (* "Failed to allocate memory for convolution redzone checking; ...
        This message will only be printed once." *)
| WarnRedzoneCheckFailed (error_message : string)
    (* "Failed to check cudnn convolutions for out-of-bounds reads and
        writes with an error message: '...'; ... This message will only be
        printed once." *)
| ErrorRedzoneModified
    (* "Detected cudnn out-of-bounds write in convolution buffer! ..." *)
| ErrorFailureMsg (m : string).

#[global] Instance LogLine_eq_dec : EqDecision LogLine.
Proof. solve_decision. Defined.

(** The state of the process the two functions touch: the log and the
    function-local [static std::once_flag]s.  [WrapRedzoneBestEffort] is an
    ordinary function and owns one flag.  [CheckRedzones] is a function
    template, explicitly instantiated for [AutotuneResult] and for
    [AutotuneExecutionPlanResult]; a static local of a function template
    exists once per instantiation, so there are two [failure_logged]
    flags. *)
Record Process :=
  { rz_allocation_failure_logged : bool;
    failure_logged_AutotuneResult : bool;
    failure_logged_AutotuneExecutionPlanResult : bool;
    log : list LogLine }.

Definition process_start : Process :=
  {| rz_allocation_failure_logged := false;
     failure_logged_AutotuneResult := false;
     failure_logged_AutotuneExecutionPlanResult := false;
     log := [] |}.

Definition LOG (l : LogLine) (p : Process) : Process :=
  {| rz_allocation_failure_logged := rz_allocation_failure_logged p;
     failure_logged_AutotuneResult := failure_logged_AutotuneResult p;
     failure_logged_AutotuneExecutionPlanResult :=
       failure_logged_AutotuneExecutionPlanResult p;
     log := log p ++ [l] |}.

(** A [std::once_flag]: how to read it and how to set it. *)
Record once_flag :=
  { flag_set : Process -> bool; set_flag : Process -> Process }.

Definition call_once (flag : once_flag) (f : Process -> Process)
    (p : Process) : Process :=
  if flag_set flag p then p else set_flag flag (f p).

Definition rz_allocation_failure_logged_flag : once_flag :=
  {| flag_set := rz_allocation_failure_logged;
     set_flag := fun p =>
       {| rz_allocation_failure_logged := true;
          failure_logged_AutotuneResult := failure_logged_AutotuneResult p;
          failure_logged_AutotuneExecutionPlanResult :=
            failure_logged_AutotuneExecutionPlanResult p;
          log := log p |} |}.

Definition failure_logged_AutotuneResult_flag : once_flag :=
  {| flag_set := failure_logged_AutotuneResult;
     set_flag := fun p =>
       {| rz_allocation_failure_logged := rz_allocation_failure_logged p;
          failure_logged_AutotuneResult := true;
          failure_logged_AutotuneExecutionPlanResult :=
            failure_logged_AutotuneExecutionPlanResult p;
          log := log p |} |}.

Definition failure_logged_AutotuneExecutionPlanResult_flag : once_flag :=
  {| flag_set := failure_logged_AutotuneExecutionPlanResult;
     set_flag := fun p =>
       {| rz_allocation_failure_logged := rz_allocation_failure_logged p;
          failure_logged_AutotuneResult := failure_logged_AutotuneResult p;
          failure_logged_AutotuneExecutionPlanResult := true;
          log := log p |} |}.

(** What [CheckRedzones<T>] needs of [T]: [mutable_failure()] with its three
    setters, and the [failure_logged] flag of that instantiation. *)
Class RedzoneResult (T : Type) :=
  { mutable_failure : Failure -> T -> T;
    failure_logged : once_flag }.

#[global] Instance RedzoneResult_AutotuneResult
  : RedzoneResult AutotuneResult.t :=
  {| mutable_failure := AutotuneResult.set_failure;
     failure_logged := failure_logged_AutotuneResult_flag |}.

#[global] Instance RedzoneResult_AutotuneExecutionPlanResult
  : RedzoneResult AutotuneExecutionPlanResult.t :=
  {| mutable_failure := AutotuneExecutionPlanResult.set_failure;
     failure_logged := failure_logged_AutotuneExecutionPlanResult_flag |}.

(** [RedzoneCheckDisabled]; the argument is [getenv("TF_DISABLE_RZ_CHECK")]. *)
Definition RedzoneCheckDisabled (disable_rz_str : option string) : bool :=
  match disable_rz_str with
  | Some s => String.eqb s "1"
  | None => false
  end.

(** [WrapRedzoneBestEffort]; [AllocateBytes] is the allocator's method. *)
Definition WrapRedzoneBestEffort (disable_rz_str : option string)
    (AllocateBytes : Z -> StatusOr DeviceMemoryBase)
    (buffer : DeviceMemoryBase) (p : Process) : DeviceMemoryBase * Process :=
  if RedzoneCheckDisabled disable_rz_str then (buffer, p)
  else
    match AllocateBytes (size buffer) with
    | ErrorStatus _ =>
        (buffer,
         call_once rz_allocation_failure_logged_flag
                   (LOG WarnRedzoneAllocationFailed) p)
    | ValueOrDie output_rz => (output_rz, p)
    end.

(** [CheckRedzones<T>]; [rz_status] is what [rz_allocator.CheckRedzones()]
    returned. *)
Definition CheckRedzones {T} `{RedzoneResult T}
    (disable_rz_str : option string)
    (rz_status : StatusOr RedzoneCheckStatus)
    (autotune_result : T) (p : Process) : T * Process :=
  if RedzoneCheckDisabled disable_rz_str then (autotune_result, p)
  else
    match rz_status with
    | ErrorStatus error_message =>
        (autotune_result,
         call_once failure_logged
                   (LOG (WarnRedzoneCheckFailed error_message)) p)
    | ValueOrDie rz_check_status =>
        if negb (rz_ok rz_check_status) then
          (mutable_failure
             {| kind := REDZONE_MODIFIED;
                msg := RedzoneFailureMsg rz_check_status;
                buffer_address := user_buffer_address rz_check_status |}
             autotune_result,
           LOG (ErrorFailureMsg (RedzoneFailureMsg rz_check_status))
               (LOG ErrorRedzoneModified p))
        else (autotune_result, p)
    end.

(** The calls one process makes, in order. *)
Inductive RedzoneCall :=
| CallWrapRedzoneBestEffort (disable_rz_str : option string)
    (AllocateBytes : Z -> StatusOr DeviceMemoryBase) (buffer : DeviceMemoryBase)
| CallCheckRedzones_AutotuneResult (disable_rz_str : option string)
    (rz_status : StatusOr RedzoneCheckStatus) (r : AutotuneResult.t)
| CallCheckRedzones_AutotuneExecutionPlanResult
    (disable_rz_str : option string)
    (rz_status : StatusOr RedzoneCheckStatus)
    (r : AutotuneExecutionPlanResult.t).

Definition redzone_step (p : Process) (c : RedzoneCall) : Process :=
  match c with
  | CallWrapRedzoneBestEffort e a b => snd (WrapRedzoneBestEffort e a b p)
  | CallCheckRedzones_AutotuneResult e s r => snd (CheckRedzones e s r p)
  | CallCheckRedzones_AutotuneExecutionPlanResult e s r =>
      snd (CheckRedzones e s r p)
  end.

Definition redzone_run (calls : list RedzoneCall) (p : Process) : Process :=
  fold_left redzone_step calls p.

Definition is_check_failed (l : LogLine) : bool :=
  match l with WarnRedzoneCheckFailed _ => true | _ => false end.

Definition is_allocation_failed (l : LogLine) : bool :=
  match l with WarnRedzoneAllocationFailed => true | _ => false end.

Definition times_logged (f : LogLine -> bool) (p : Process) : nat :=
  length (List.filter f (log p)).

(** ** Part V.  The run loop ([GpuExecutable::ExecuteAsyncOnStream]) *)

(** Modelled from the spec: the header declares the run loop and its
    helpers, and their bodies are in gpu_executable.cc, which is missing.
    The types and definitions of this part follow sections 3 and 4.1 of the
    specification, under the names the header declares. *)

(** [GpuVersion]: "either AMD's ISA version, or Nvidia's major minor
    version for compute capability". *)
Inductive GpuVersion :=
| CudaComputeCapability (cc_major cc_minor : Z)
| AmdIsaVersion (isa_version : Z).

#[global] Instance GpuVersion_eq_dec : EqDecision GpuVersion.
Proof. solve_decision. Defined.

Inductive RunError :=
| CapabilityMismatch
| ConstantResolutionFailure (device_ordinal : Z)
| ThunkExecutionFailure (thunk : nat).

Inductive RunEvent :=
| ModuleLoaded (device_ordinal : Z)
| ThunkExecuted (thunk : nat)
| GraphCaptured (device_ordinal key : Z)
| GraphReplayed (device_ordinal key : Z)
| HostBlockedUntilDone.

(** A thunk: its identity, whether it disqualifies the program from replay,
    and its effect on device memory under the bound allocations ([None]: the
    device reported a failure). *)
Record Thunk :=
  { thunk_id : nat;
    host_callback : bool;
    ExecuteOnStream : gmap Z Z -> gmap Z Z -> option (gmap Z Z) }.

Record StreamExecutor :=
  { device_ordinal_of : Z;
    device_version : GpuVersion;
    (* the module loader: the resolved constants, or a failure *)
    LoadModule : option (gmap Z Z) }.

Record ServiceExecutableRunOptions :=
  { stream_executor : StreamExecutor;
    dont_block_host : bool }.

Record GpuExecutable :=
  { gpu_version_ : GpuVersion;
    thunk_schedule_ : list Thunk;
    can_use_gpu_graph_capture_ : bool;
    (* the configuration key of a set of bound allocations *)
    config_key : gmap Z Z -> Z }.

(** Everything a run can touch. *)
Record World :=
  { device_memory : gmap Z Z;
    module_globals_ : gmap Z (gmap Z Z);
    gpu_exec_graphs_cache_ : gset (Z * Z);
    events : list RunEvent }.

Definition emit (e : RunEvent) (w : World) : World :=
  {| device_memory := device_memory w; module_globals_ := module_globals_ w;
     gpu_exec_graphs_cache_ := gpu_exec_graphs_cache_ w;
     events := events w ++ [e] |}.

Definition with_memory (m : gmap Z Z) (w : World) : World :=
  {| device_memory := m; module_globals_ := module_globals_ w;
     gpu_exec_graphs_cache_ := gpu_exec_graphs_cache_ w;
     events := events w |}.

(** Modelled from the spec: the body of
    [CheckCompatibilityWithServiceExecutableRunOptions] is missing; "the
    device handle's compute capability must exactly match the capability the
    program was compiled for". *)
Definition CheckCompatibilityWithServiceExecutableRunOptions
    (exe : GpuExecutable) (run_options : ServiceExecutableRunOptions)
  : option RunError :=
  if decide (device_version (stream_executor run_options) = gpu_version_ exe)
  then None else Some CapabilityMismatch.

(** Modelled from the spec: the body of [ResolveConstantGlobals] is missing;
    step 1, "look up the device in the cache; on miss, load the program
    binary onto the device, resolve every constant allocation's device
    pointer, and insert into the cache". *)
Definition ResolveConstantGlobals (se : StreamExecutor) (w : World)
  : option (gmap Z Z) * World :=
  match module_globals_ w !! device_ordinal_of se with
  | Some globals => (Some globals, w)
  | None =>
      match LoadModule se with
      | None => (None, w)
      | Some globals =>
          (Some globals,
           emit (ModuleLoaded (device_ordinal_of se))
             {| device_memory := device_memory w;
                module_globals_ :=
                  <[device_ordinal_of se := globals]> (module_globals_ w);
                gpu_exec_graphs_cache_ := gpu_exec_graphs_cache_ w;
                events := events w |})
      end
  end.

(** Modelled from the spec: the body of [ExecuteThunks] is missing; step 3,
    "execute thunks individually in schedule order, each given the current
    BufferAllocations"; a failing thunk ends the run and "prior thunks' side
    effects on buffers are not rolled back". *)
Fixpoint ExecuteThunks (thunks : list Thunk) (buffer_allocations : gmap Z Z)
    (w : World) : option RunError * World :=
  match thunks with
  | [] => (None, w)
  | t :: rest =>
      let w1 := emit (ThunkExecuted (thunk_id t)) w in
      match ExecuteOnStream t buffer_allocations (device_memory w1) with
      | None => (Some (ThunkExecutionFailure (thunk_id t)), w1)
      | Some m => ExecuteThunks rest buffer_allocations (with_memory m w1)
      end
  end.

(** Modelled from the spec: the graph replay primitive of the device runtime
    is missing; a replay entry is "an executable capture of thunk dispatch
    for one fixed BufferAllocations configuration", so replaying applies the
    thunks' effects in schedule order without dispatching them one by one. *)
Fixpoint ReplayGraph (thunks : list Thunk) (buffer_allocations : gmap Z Z)
    (m : gmap Z Z) : RunError + gmap Z Z :=
  match thunks with
  | [] => inr m
  | t :: rest =>
      match ExecuteOnStream t buffer_allocations m with
      | None => inl (ThunkExecutionFailure (thunk_id t))
      | Some m' => ReplayGraph rest buffer_allocations m'
      end
  end.

(** Modelled from the spec: the body of [CanUseGpuGraphCapture] is missing;
    "certain thunk kinds - e.g., host callbacks - disqualify a program from
    replay". *)
Definition CanUseGpuGraphCapture (exe : GpuExecutable) : bool :=
  can_use_gpu_graph_capture_ exe
  && forallb (fun t => negb (host_callback t)) (thunk_schedule_ exe).

Definition cache_graph (key : Z * Z) (w : World) : World :=
  {| device_memory := device_memory w; module_globals_ := module_globals_ w;
     gpu_exec_graphs_cache_ := {[ key ]} ∪ gpu_exec_graphs_cache_ w;
     events := events w |}.

(** Modelled from the spec: step 4, "unless an explicit don't-block mode is
    requested, block until the assigned stream(s) complete". *)
Definition complete (run_options : ServiceExecutableRunOptions) (w : World)
  : (RunError + gmap Z Z) * World :=
  let w' := if dont_block_host run_options then w
            else emit HostBlockedUntilDone w in
  (inr (device_memory w'), w').

(** Modelled from the spec: the body of [ExecuteAsyncOnStream] is missing;
    section 4.1: the compatibility precondition, then constant resolution,
    buffer assembly, dispatch (replay on a cache hit, per-thunk execution
    otherwise, with capture when replay is permitted) and completion. *)
Definition ExecuteAsyncOnStream (exe : GpuExecutable)
    (run_options : ServiceExecutableRunOptions) (arguments : gmap Z Z)
    (w : World) : (RunError + gmap Z Z) * World :=
  match CheckCompatibilityWithServiceExecutableRunOptions exe run_options with
  | Some e => (inl e, w)
  | None =>
    let se := stream_executor run_options in
    match ResolveConstantGlobals se w with
    | (None, w1) => (inl (ConstantResolutionFailure (device_ordinal_of se)), w1)
    | (Some globals, w1) =>
      let buffer_allocations := globals ∪ arguments in
      let key := (device_ordinal_of se, config_key exe buffer_allocations) in
      if CanUseGpuGraphCapture exe
         && bool_decide (key ∈ gpu_exec_graphs_cache_ w1)
      then
        let w2 := emit (GraphReplayed (fst key) (snd key)) w1 in
        match ReplayGraph (thunk_schedule_ exe) buffer_allocations
                          (device_memory w2) with
        | inl e => (inl e, w2)
        | inr m => complete run_options (with_memory m w2)
        end
      else
        match ExecuteThunks (thunk_schedule_ exe) buffer_allocations w1 with
        | (Some e, w2) => (inl e, w2)
        | (None, w2) =>
            complete run_options
              (if CanUseGpuGraphCapture exe
               then emit (GraphCaptured (fst key) (snd key))
                         (cache_graph key w2)
               else w2)
        end
    end
  end.

(** ** Part VI.  What the specification says, as predicates *)

(** [r], at position [k] of [results], is the stable minimum by [time] among
    the candidates that satisfy [ok]: no such candidate is faster, and every
    such candidate before [k] is strictly slower. *)
Definition first_fastest {A} (time : A -> Z) (ok : A -> bool)
    (results : list A) (k : nat) (r : A) : Prop :=
  results !! k = Some r /\ ok r = true /\
  forall j rj, results !! j = Some rj -> ok rj = true ->
    time r <= time rj /\ ((j < k)%nat -> time r < time rj).

(** [r], at position [k], is the first candidate in input order that
    satisfies [ok]. *)
Definition first_in_order {A} (ok : A -> bool)
    (results : list A) (k : nat) (r : A) : Prop :=
  results !! k = Some r /\ ok r = true /\
  forall j rj, results !! j = Some rj -> ok rj = true -> (k <= j)%nat.

Definition none_ok {A} (ok : A -> bool) (results : list A) : Prop :=
  forall r, r ∈ results -> ok r = false.

Module Survivor.
(** The two subsets of the selector, for each of the two result types. *)
Definition any (r : AutotuneResult.t) : bool :=
  negb (AutotuneResult.has_failure r).
Definition zero_scratch (r : AutotuneResult.t) : bool :=
  negb (AutotuneResult.has_failure r)
  && (AutotuneResult.scratch_bytes r =? 0).
Definition plan_any (r : AutotuneExecutionPlanResult.t) : bool :=
  negb (AutotuneExecutionPlanResult.has_failure r).
Definition plan_zero_scratch (r : AutotuneExecutionPlanResult.t) : bool :=
  negb (AutotuneExecutionPlanResult.has_failure r)
  && (AutotuneExecutionPlanResult.scratch_bytes r =? 0).
End Survivor.

(** A slot of the [AlgorithmConfig] holds the descriptor of candidate [r]. *)
Definition holds_algorithm (slot : option AlgorithmDesc)
    (r : AutotuneResult.t) : Prop :=
  slot = Some (desc_of (AutotuneResult.conv r)).

(** The measure each mode of [BestCudnnConvAlgorithm] minimises: the run
    time, or nothing at all when determinism is required (then the stable
    minimum is the first element). *)
Definition mode_time (FromDurationProto : Duration -> Z)
    (RequireCuDNNDeterminism : bool) : AutotuneResult.t -> Z :=
  if RequireCuDNNDeterminism then (fun _ => 0)
  else fun r => FromDurationProto (AutotuneResult.run_time r).

(** What one output index of the plan loop means over the candidates seen so
    far: [-1] while none qualified, else the position of the stable
    minimum. *)
Definition slot_inv {A} (time : A -> Z) (ok : A -> bool)
    (seen : list A) (z : Z) : Prop :=
  (z = -1 /\ none_ok ok seen)
  \/ (exists k r, z = Z.of_nat k /\ first_fastest time ok seen k r).

(** The run times of the examples, in nanoseconds. *)
Definition nanoseconds (d : Duration) : Z :=
  seconds d * 1000000000 + nanos d.

Definition ms (n : Z) : Duration := {| seconds := 0; nanos := n * 1000000 |}.

Definition candidate (id : Z) (t : Duration) (scratch : Z)
  : AutotuneResult.t :=
  {| AutotuneResult.conv := {| algorithm := id; tensor_ops_enabled := false |};
     AutotuneResult.failure := None;
     AutotuneResult.scratch_bytes := scratch;
     AutotuneResult.run_time := t |}.

Definition plan_candidate (t : Duration) (scratch : Z)
  : AutotuneExecutionPlanResult.t :=
  {| AutotuneExecutionPlanResult.failure := None;
     AutotuneExecutionPlanResult.scratch_bytes := scratch;
     AutotuneExecutionPlanResult.run_time := t |}.

Definition failed (r : AutotuneResult.t) : AutotuneResult.t :=
  AutotuneResult.set_failure
    {| kind := UNKNOWN; msg := "failed"; buffer_address := 0 |} r.

Definition plan_failed (r : AutotuneExecutionPlanResult.t)
  : AutotuneExecutionPlanResult.t :=
  AutotuneExecutionPlanResult.set_failure
    {| kind := UNKNOWN; msg := "failed"; buffer_address := 0 |} r.

Definition no_algorithm : AlgorithmConfig :=
  {| algorithm_ := None; algorithm_no_scratch_ := None |}.

(** Node identities are pairwise distinct and below the allocation counter.
    It holds of the empty cache and every operation keeps it. *)
Definition nodes_distinct (c : MutexedGraphExecCache) : Prop :=
  NoDup (gpu_exec_graphs_ c).*1
  /\ forall n v, (n, v) ∈ gpu_exec_graphs_ c -> (n < next_node_ c)%nat.

(** A cache of capacity 1 after [update_cache 10 100] and then
    [update_cache 20 200]: the second call evicts the entry of key 10. *)
Definition cache_one_entry : MutexedGraphExecCache :=
  update_cache 10 100 (set_cache_size 1 empty_cache).

Definition cache_after_eviction : MutexedGraphExecCache :=
  update_cache 20 200 cache_one_entry.

Definition b2n (b : bool) : nat := if b then 1%nat else 0%nat.

(** What the once-flags bound: the allocation warning by the one flag of
    [WrapRedzoneBestEffort], the check warning by the two flags of the two
    instantiations of [CheckRedzones]. *)
Definition once_bounds (p : Process) : Prop :=
  (times_logged is_allocation_failed p
   <= b2n (rz_allocation_failure_logged p))%nat
  /\ (times_logged is_check_failed p
      <= b2n (failure_logged_AutotuneResult p)
         + b2n (failure_logged_AutotuneExecutionPlanResult p))%nat.

(** The execution-plan result that carries the same failure, scratch size
    and run time as an [AutotuneResult]. *)
Definition plan_of (r : AutotuneResult.t) : AutotuneExecutionPlanResult.t :=
  {| AutotuneExecutionPlanResult.failure := AutotuneResult.failure r;
     AutotuneExecutionPlanResult.scratch_bytes :=
       AutotuneResult.scratch_bytes r;
     AutotuneExecutionPlanResult.run_time := AutotuneResult.run_time r |}.

(** Calls that reach a [call_once]: the check is enabled and the allocation,
    respectively the redzone check, reports an error. *)
Definition wrap_fails (c : RedzoneCall) : bool :=
  match c with
  | CallWrapRedzoneBestEffort e alloc buffer =>
      negb (RedzoneCheckDisabled e)
      && match alloc (size buffer) with
         | ErrorStatus _ => true
         | ValueOrDie _ => false
         end
  | _ => false
  end.

Definition check_fails_AutotuneResult (c : RedzoneCall) : bool :=
  match c with
  | CallCheckRedzones_AutotuneResult e (ErrorStatus _) _ =>
      negb (RedzoneCheckDisabled e)
  | _ => false
  end.

Definition check_fails_AutotuneExecutionPlanResult (c : RedzoneCall) : bool :=
  match c with
  | CallCheckRedzones_AutotuneExecutionPlanResult e (ErrorStatus _) _ =>
      negb (RedzoneCheckDisabled e)
  | _ => false
  end.

(** The pointers the list holds, front to back, and the graphs released so
    far, oldest first. *)
Definition cached_graphs (c : MutexedGraphExecCache) : list Z :=
  (gpu_exec_graphs_ c).*2.

Definition released_graphs (c : MutexedGraphExecCache) : list Z :=
  call_exec <$> driver_calls_ c.

(** What the once-flags record: each warning has been logged once for each
    of its flags that is set, and not otherwise. *)
Definition once_exact (p : Process) : Prop :=
  times_logged is_allocation_failed p = b2n (rz_allocation_failure_logged p)
  /\ times_logged is_check_failed p
     = (b2n (failure_logged_AutotuneResult p)
        + b2n (failure_logged_AutotuneExecutionPlanResult p))%nat.

(** ** Part VII.  Facts about stable minima *)

Section StableMinimum.
Context {A : Type} (time : A -> Z).

Lemma first_fastest_unique ok (l : list A) k r k' r' :
  first_fastest time ok l k r -> first_fastest time ok l k' r' ->
  k = k' /\ r = r'.
Proof.
  intros (Hk & Hok & Hmin) (Hk' & Hok' & Hmin').
  destruct (Hmin _ _ Hk' Hok') as [H1 H2].
  destruct (Hmin' _ _ Hk Hok) as [H3 H4].
  assert (k = k') as -> by lia.
  split; [done | congruence].
Qed.

Lemma first_fastest_snoc_keep ok (pre : list A) k x y :
  first_fastest time ok pre k x ->
  ok y = false \/ time x <= time y ->
  first_fastest time ok (pre ++ [y]) k x.
Proof.
  intros (Hk & Hok & Hmin) Hy.
  split; [by apply lookup_app_l_Some | split; [done |]].
  intros j rj Hj Hrj.
  apply lookup_app_Some in Hj as [Hj | [Hlen Hj]]; [by eauto |].
  apply list_lookup_singleton_Some in Hj as [_ <-].
  destruct Hy as [Hy | Hy]; [congruence |].
  apply lookup_lt_Some in Hk. split; [done | lia].
Qed.

Lemma first_fastest_snoc_new ok (pre : list A) y :
  ok y = true ->
  (forall j rj, pre !! j = Some rj -> ok rj = true -> time y < time rj) ->
  first_fastest time ok (pre ++ [y]) (length pre) y.
Proof.
  intros Hy Hlt. split; [| split; [done |]].
  - rewrite lookup_app_r by lia. by rewrite Nat.sub_diag.
  - intros j rj Hj Hrj.
    apply lookup_app_Some in Hj as [Hj | [Hlen Hj]].
    + specialize (Hlt _ _ Hj Hrj). lia.
    + apply list_lookup_singleton_Some in Hj as [? <-]. lia.
Qed.

Lemma first_fastest_snoc_faster ok (pre : list A) k x y :
  first_fastest time ok pre k x -> ok y = true -> time y < time x ->
  first_fastest time ok (pre ++ [y]) (length pre) y.
Proof.
  intros (Hk & Hok & Hmin) Hy Hlt. apply first_fastest_snoc_new; [done |].
  intros j rj Hj Hrj. destruct (Hmin _ _ Hj Hrj). lia.
Qed.

Lemma first_fastest_cons_inv ok a (l : list A) k r :
  first_fastest time ok (a :: l) (S k) r ->
  first_fastest time ok l k r /\ (ok a = true -> time r < time a).
Proof.
  intros (Hk & Hok & Hmin). split.
  - split; [done | split; [done |]]. intros j rj Hj Hrj.
    destruct (Hmin (S j) rj Hj Hrj). split; [done | lia].
  - intros Ha. destruct (Hmin 0%nat a eq_refl Ha). lia.
Qed.

Lemma first_fastest_cons_S ok a (l : list A) k r :
  first_fastest time ok l k r -> (ok a = true -> time r < time a) ->
  first_fastest time ok (a :: l) (S k) r.
Proof.
  intros (Hk & Hok & Hmin) Ha. split; [done | split; [done |]].
  intros [| j] rj Hj Hrj; simpl in Hj.
  - injection Hj as <-. specialize (Ha Hrj). lia.
  - destruct (Hmin _ _ Hj Hrj). split; [done | lia].
Qed.

Lemma first_fastest_cons_skip ok a (l : list A) k r :
  first_fastest time ok l k r -> ok a = false ->
  first_fastest time ok (a :: l) (S k) r.
Proof. intros H Ha. apply first_fastest_cons_S; [done | congruence]. Qed.

(** A stable minimum of the filtered list is a stable minimum of the
    list itself, among the candidates the filter keeps. *)
Lemma first_fastest_filter (P ok : A -> bool) (l : list A) k r :
  first_fastest time ok (List.filter P l) k r ->
  exists k', first_fastest time (fun a => P a && ok a) l k' r.
Proof.
  revert k. induction l as [| a l IH]; intros k H; simpl in H.
  - destruct H as (H & _). by rewrite lookup_nil in H.
  - destruct (P a) eqn:HP.
    + destruct k as [| k].
      * destruct H as (Hk & Hok & Hmin). injection Hk as ->.
        exists 0%nat. split; [done | split; [by rewrite HP |]].
        intros j rj Hj Hrj. split; [| lia].
        apply andb_true_iff in Hrj as [HPj Hokj].
        assert (rj ∈ List.filter P (r :: l)) as Hin.
        { apply list_elem_of_In, filter_In. split; [| done].
          apply list_elem_of_In. by eapply list_elem_of_lookup_2. }
        apply list_elem_of_lookup in Hin as [j' Hj'].
        simpl in Hj'. rewrite HP in Hj'.
        by destruct (Hmin _ _ Hj' Hokj).
      * apply first_fastest_cons_inv in H as [H Ha].
        destruct (IH _ H) as [k' Hk']. exists (S k').
        apply first_fastest_cons_S; [done |].
        rewrite HP. simpl. done.
    + destruct (IH _ H) as [k' Hk']. exists (S k').
      apply first_fastest_cons_skip; [done | by rewrite HP].
Qed.

(** [std::min_element] returns the stable minimum. *)
Lemma min_element_loop_spec (pre rest : list A) k x :
  first_fastest time (fun _ => true) pre k x ->
  first_fastest time (fun _ => true) (pre ++ rest)
    (fst (min_element_loop (fun a b => time a <? time b)
                           (k, x) (length pre) rest))
    (snd (min_element_loop (fun a b => time a <? time b)
                           (k, x) (length pre) rest)).
Proof.
  revert pre k x. induction rest as [| y rest IH]; intros pre k x H.
  - simpl. by rewrite app_nil_r.
  - simpl. replace (pre ++ y :: rest) with ((pre ++ [y]) ++ rest)
      by (by rewrite <- app_assoc).
    replace (S (length pre)) with (length (pre ++ [y]))
      by (rewrite length_app; simpl; lia).
    destruct (time y <? time x) eqn:Hlt.
    + apply IH. apply first_fastest_snoc_faster with k x; [done.. | lia].
    + apply IH. apply first_fastest_snoc_keep; [done |]. right. lia.
Qed.

Lemma c_min_element_spec (c : list A) :
  c <> [] ->
  exists r, first_fastest time (fun _ => true) c
              (c_min_element c (fun a b => time a <? time b)) r.
Proof.
  destruct c as [| x rest]; [done | intros _].
  eexists. unfold c_min_element.
  apply (min_element_loop_spec [x] rest 0%nat x).
  split; [done | split; [done |]].
  intros [| j] rj Hj _; simpl in Hj; [| by rewrite lookup_nil in Hj].
  injection Hj as <-. lia.
Qed.

Lemma c_min_element_nil (comp : A -> A -> bool) :
  c_min_element [] comp = 0%nat.
Proof. done. Qed.

Lemma first_fastest_lt_length ok (l : list A) k r :
  first_fastest time ok l k r -> (k < length l)%nat.
Proof. intros (Hk & _). by eapply lookup_lt_Some. Qed.

(** Some candidate satisfies [ok] exactly when a stable minimum exists. *)
Lemma first_fastest_exists ok (l : list A) :
  (exists r, r ∈ l /\ ok r = true) ->
  exists k r, first_fastest time ok l k r.
Proof.
  intros (r0 & Hin & Hok0).
  assert (List.filter ok l <> []) as Hne.
  { intros Hnil. assert (In r0 (List.filter ok l)) as HIn.
    { apply filter_In. split; [by apply list_elem_of_In | done]. }
    rewrite Hnil in HIn. done. }
  destruct (c_min_element_spec _ Hne) as [r Hr].
  apply first_fastest_filter in Hr as [k Hk].
  exists k, r. destruct Hk as (H1 & H2 & H3).
  split; [done | split].
  - by apply andb_true_iff in H2 as [? _].
  - intros j rj Hj Hrj. apply H3; [done |]. by rewrite Hrj.
Qed.

Lemma first_fastest_ext ok ok' (l : list A) k r :
  (forall a, ok a = ok' a) ->
  first_fastest time ok l k r -> first_fastest time ok' l k r.
Proof.
  intros Hext (H1 & H2 & H3). split; [done | split].
  - by rewrite <- Hext.
  - intros j rj Hj Hrj. apply H3; [done |]. by rewrite Hext.
Qed.

End StableMinimum.

Lemma first_fastest_const_first_in_order {A} (ok : A -> bool)
    (l : list A) k r :
  first_fastest (fun _ => 0) ok l k r <-> first_in_order ok l k r.
Proof.
  split; intros (Hk & Hok & H); (split; [done | split; [done |]]).
  - intros j rj Hj Hrj. destruct (H _ _ Hj Hrj) as [_ Hlt].
    destruct (decide (j < k)%nat) as [Hjk | Hjk]; [specialize (Hlt Hjk) |];
      lia.
  - intros j rj Hj Hrj. specialize (H _ _ Hj Hrj). split; lia.
Qed.

Lemma filter_nil_none_ok {A} (ok : A -> bool) (l : list A) :
  List.filter ok l = [] <-> none_ok ok l.
Proof.
  split.
  - intros Hnil r Hin. destruct (ok r) eqn:Hr; [| done].
    assert (In r (List.filter ok l)) as HIn
      by (apply filter_In; split; [by apply list_elem_of_In | done]).
    by rewrite Hnil in HIn.
  - intros Hnone. destruct (List.filter ok l) as [| a l'] eqn:Hf; [done |].
    assert (In a (List.filter ok l)) as HIn by (rewrite Hf; by left).
    apply filter_In in HIn as [HIn Ha].
    apply list_elem_of_In in HIn. rewrite (Hnone _ HIn) in Ha. done.
Qed.

Lemma filter_filter_andb {A} (P Q : A -> bool) (l : list A) :
  List.filter Q (List.filter P l) = List.filter (fun a => P a && Q a) l.
Proof.
  induction l as [| a l IH]; [done |]. simpl.
  destruct (P a); simpl; [destruct (Q a) |]; by rewrite IH.
Qed.

(** ** Part VIII.  The selector: [BestCudnnConvAlgorithm] *)

Section SelectorFacts.
Variable FromDurationProto : Duration -> Z.

Let time := fun r => FromDurationProto (AutotuneResult.run_time r).
Let plan_time :=
  fun r => FromDurationProto (AutotuneExecutionPlanResult.run_time r).

Lemma selected_spec (det : bool) (c : list AutotuneResult.t) :
  c <> [] ->
  exists r,
    first_fastest (mode_time FromDurationProto det) (fun _ => true) c
      (if negb det
       then c_min_element c (compare_run_times FromDurationProto)
       else 0%nat) r.
Proof.
  intros Hne. destruct det; simpl.
  - destruct c as [| x rest]; [done |]. exists x.
    split; [done | split; [done |]]. intros; lia.
  - apply (c_min_element_spec time c Hne).
Qed.

Lemma BestCudnnConvAlgorithm_all_failed det results algo :
  none_ok Survivor.any results ->
  BestCudnnConvAlgorithm FromDurationProto det results algo
  = Some (NotFound "No algorithm worked!", algo).
Proof.
  intros Hnone. apply filter_nil_none_ok in Hnone.
  unfold BestCudnnConvAlgorithm. unfold Survivor.any in Hnone.
  by rewrite Hnone.
Qed.

(** With a survivor, the call is defined, succeeds, and each slot holds
    the stable minimum of its subset by [mode_time]; the no-scratch slot
    is not written when its subset is empty. *)
Lemma BestCudnnConvAlgorithm_survivor det results algo :
  ~ none_ok Survivor.any results ->
  exists out k r,
    BestCudnnConvAlgorithm FromDurationProto det results algo
    = Some (OK, out)
    /\ first_fastest (mode_time FromDurationProto det) Survivor.any results k r
    /\ holds_algorithm (algorithm_ out) r
    /\ ((none_ok Survivor.zero_scratch results
         /\ algorithm_no_scratch_ out = algorithm_no_scratch_ algo)
        \/ (exists kn rn,
              first_fastest (mode_time FromDurationProto det) Survivor.zero_scratch
                            results kn rn
              /\ holds_algorithm (algorithm_no_scratch_ out) rn)).
Proof.
  intros Hsome. unfold BestCudnnConvAlgorithm.
  set (P := fun result => negb (AutotuneResult.has_failure result)).
  set (Q := fun result => AutotuneResult.scratch_bytes result =? 0).
  assert (List.filter P results <> []) as Hne.
  { intros Hnil. apply Hsome. by apply filter_nil_none_ok. }
  destruct (selected_spec det _ Hne) as [r Hr].
  destruct (List.filter P results) as [| a l] eqn:Hf; [done |].
  rewrite <- Hf in *.
  set (sel := if negb det then _ else _) in *.
  pose proof Hr as (Hsel & _). rewrite Hsel.
  apply first_fastest_filter in Hr as [k Hk].
  assert (first_fastest (mode_time FromDurationProto det) Survivor.any results k r) as Hprim.
  { eapply first_fastest_ext; [| exact Hk]. intros x. unfold P, Survivor.any.
    apply andb_true_r. }
  destruct (List.filter Q (List.filter P results)) as [| b l'] eqn:Hfn.
  - (* no zero-scratch survivor: both iterators are [end()] *)
    assert ((if negb det
             then c_min_element [] (compare_run_times FromDurationProto)
             else 0%nat) = 0%nat) as -> by (by destruct det).
    simpl. eexists _, k, r. split; [done |]. split; [done |].
    split; [done |]. left. split; [| done].
    rewrite filter_filter_andb in Hfn. by apply filter_nil_none_ok in Hfn.
  - rewrite <- Hfn.
    assert (List.filter Q (List.filter P results) <> []) as Hnen
      by (by rewrite Hfn).
    destruct (selected_spec det _ Hnen) as [rn Hrn].
    pose proof (first_fastest_lt_length _ _ _ _ _ Hrn) as Hlt.
    pose proof Hrn as (Hseln & _).
    match goal with |- context [Nat.eqb ?a ?b] =>
      destruct (Nat.eqb_spec a b) as [Heq | _]; [lia |] end.
    rewrite Hseln. eexists _, k, r. split; [done |]. split; [done |].
    split; [done |]. right.
    apply first_fastest_filter in Hrn as [k1 Hk1].
    apply first_fastest_filter in Hk1 as [kn Hkn].
    exists kn, rn. split; [| done].
    eapply first_fastest_ext; [| exact Hkn]. intros x.
    unfold P, Q, Survivor.zero_scratch. by rewrite andb_true_r.
Qed.

End SelectorFacts.

(** ** Part IX.  The selector: [BestCudnnConvExecutionPlan] *)

Lemma none_ok_snoc {A} (ok : A -> bool) (pre : list A) y :
  none_ok ok pre -> ok y = false -> none_ok ok (pre ++ [y]).
Proof.
  intros Hpre Hy r Hin. apply elem_of_app in Hin as [Hin | Hin]; [by auto |].
  apply list_elem_of_singleton in Hin. by subst.
Qed.

Lemma slot_inv_skip {A} (time : A -> Z) ok (pre : list A) y z :
  slot_inv time ok pre z -> ok y = false ->
  slot_inv time ok (pre ++ [y]) z.
Proof.
  intros [[-> Hnone] | (k & r & -> & Hk)] Hy.
  - left. split; [done | by apply none_ok_snoc].
  - right. exists k, r. split; [done |].
    apply first_fastest_snoc_keep; [done | by left].
Qed.

Lemma slot_inv_minus_one {A} (time : A -> Z) ok (pre : list A) z :
  slot_inv time ok pre z -> z = -1 <-> none_ok ok pre.
Proof.
  intros [[-> Hnone] | (k & r & -> & Hk & Hok & _)]; [done |].
  split; [lia |]. intros Hnone.
  apply list_elem_of_lookup_2 in Hk. rewrite (Hnone _ Hk) in Hok. done.
Qed.

Lemma span_at_of_nat {A} (l : list A) (k : nat) :
  span_at l (Z.of_nat k) = l !! k.
Proof.
  unfold span_at. destruct (Z.ltb_spec (Z.of_nat k) 0); [lia |].
  by rewrite Nat2Z.id.
Qed.

Section PlanFacts.
Variable FromDurationProto : Duration -> Z.

Let plan_time :=
  fun r => FromDurationProto (AutotuneExecutionPlanResult.run_time r).

(** One evaluation of [cur == -1 or run_time(results[i]) <
    run_time(results[cur])] for a qualifying candidate [r_i] at position
    [i]: it is defined, and taking [i] when it holds keeps the slot's
    meaning. *)
Lemma plan_better_step ok (results : list AutotuneExecutionPlanResult.t)
    (i : nat) r_i cur :
  results !! i = Some r_i -> ok r_i = true ->
  slot_inv plan_time ok (take i results) cur ->
  exists b,
    plan_better FromDurationProto results r_i cur = Some b
    /\ slot_inv plan_time ok (take (S i) results)
                (if b then Z.of_nat i else cur).
Proof.
  intros Hi Hok Hinv. rewrite (take_S_r _ _ _ Hi).
  assert (length (take i results) = i) as Hlen.
  { rewrite length_take. apply lookup_lt_Some in Hi. lia. }
  unfold plan_better.
  destruct Hinv as [[-> Hnone] | (k & r & -> & Hk)].
  - exists true. split; [done |]. right. exists i, r_i. split; [done |].
    rewrite <- Hlen at 2. apply first_fastest_snoc_new; [done |].
    intros j rj Hj Hrj. apply list_elem_of_lookup_2 in Hj.
    rewrite (Hnone _ Hj) in Hrj. done.
  - destruct (Z.eqb_spec (Z.of_nat k) (-1)); [lia |].
    unfold plan_faster. rewrite span_at_of_nat.
    pose proof Hk as (Hlk & _).
    apply lookup_take_Some in Hlk as [Hlk _]. rewrite Hlk.
    eexists. split; [done |]. right.
    destruct (Z.ltb_spec (plan_time r_i) (plan_time r)) as [Hlt | Hge];
      fold plan_time.
    + subst plan_time. simpl in *.
      destruct (Z.ltb_spec
        (FromDurationProto (AutotuneExecutionPlanResult.run_time r_i))
        (FromDurationProto (AutotuneExecutionPlanResult.run_time r)));
        [| lia].
      exists i, r_i. split; [done |]. rewrite <- Hlen at 2.
      by eapply first_fastest_snoc_faster.
    + subst plan_time. simpl in *.
      destruct (Z.ltb_spec
        (FromDurationProto (AutotuneExecutionPlanResult.run_time r_i))
        (FromDurationProto (AutotuneExecutionPlanResult.run_time r)));
        [lia |].
      exists k, r. split; [done |].
      apply first_fastest_snoc_keep; [done | right; lia].
Qed.

(** The loop, started at position [i] with both slots meaning what they
    should over the first [i] candidates, is defined and ends with both
    slots meaning what they should over all candidates. *)
Lemma plan_loop_spec (results : list AutotuneExecutionPlanResult.t)
    (n i : nat) idx ns :
  (i + n = length results)%nat ->
  Z.of_nat (length results) <= INT_MAX ->
  slot_inv plan_time Survivor.plan_any (take i results) idx ->
  slot_inv plan_time Survivor.plan_zero_scratch (take i results) ns ->
  exists idx' ns',
    plan_loop FromDurationProto results n (Z.of_nat i) idx ns
    = Some (idx', ns')
    /\ slot_inv plan_time Survivor.plan_any results idx'
    /\ slot_inv plan_time Survivor.plan_zero_scratch results ns'.
Proof.
  revert i idx ns. induction n as [| n IH]; intros i idx ns Hlen Hmax H1 H2.
  - simpl. exists idx, ns. rewrite take_ge in H1, H2 by lia. done.
  - simpl. rewrite span_at_of_nat.
    destruct (results !! i) as [r_i |] eqn:Hi.
    2:{ apply lookup_ge_None in Hi. lia. }
    destruct (Z.ltb_spec INT_MAX (Z.of_nat i + 1)) as [Hov | _]; [lia |].
    replace (Z.of_nat i + 1) with (Z.of_nat (S i)) by lia.
    assert (Hnext : forall a b,
      slot_inv plan_time Survivor.plan_any (take (S i) results) a ->
      slot_inv plan_time Survivor.plan_zero_scratch (take (S i) results) b ->
      exists idx' ns',
        plan_loop FromDurationProto results n (Z.of_nat (S i)) a b
        = Some (idx', ns')
        /\ slot_inv plan_time Survivor.plan_any results idx'
        /\ slot_inv plan_time Survivor.plan_zero_scratch results ns').
    { intros a b Ha Hb. apply IH; [lia | done..]. }
    rewrite (take_S_r _ _ _ Hi) in Hnext.
    destruct (AutotuneExecutionPlanResult.has_failure r_i) eqn:Hfail; simpl.
    + apply Hnext; apply slot_inv_skip; try done;
        unfold Survivor.plan_any, Survivor.plan_zero_scratch;
        by rewrite Hfail.
    + destruct (plan_better_step Survivor.plan_any results i r_i idx)
        as (b1 & -> & Hb1); [done | | done |].
      { unfold Survivor.plan_any. by rewrite Hfail. }
      rewrite (take_S_r _ _ _ Hi) in Hb1.
      destruct (Z.eqb_spec (AutotuneExecutionPlanResult.scratch_bytes r_i) 0)
        as [Hz | Hnz].
      * destruct (plan_better_step Survivor.plan_zero_scratch
                    results i r_i ns) as (b2 & -> & Hb2); [done | | done |].
        { unfold Survivor.plan_zero_scratch. rewrite Hfail, Hz. done. }
        rewrite (take_S_r _ _ _ Hi) in Hb2. by apply Hnext.
      * apply Hnext; [done |]. apply slot_inv_skip; [done |].
        unfold Survivor.plan_zero_scratch. rewrite Hfail. simpl.
        by apply Z.eqb_neq.
Qed.

(** [BestCudnnConvExecutionPlan] on a span whose size fits [int]: it is
    defined, both outputs are overwritten with what the loop found, and
    the status is an error exactly when the primary index is [-1]. *)
Lemma BestCudnnConvExecutionPlan_spec
    (results : list AutotuneExecutionPlanResult.t) idx0 ns0 :
  Z.of_nat (length results) <= INT_MAX ->
  exists st idx ns,
    BestCudnnConvExecutionPlan FromDurationProto results idx0 ns0
    = Some (st, idx, ns)
    /\ slot_inv plan_time Survivor.plan_any results idx
    /\ slot_inv plan_time Survivor.plan_zero_scratch results ns
    /\ st = (if idx =? -1 then NotFound "No execution plan worked!"
             else OK).
Proof.
  intros Hmax. unfold BestCudnnConvExecutionPlan.
  destruct (plan_loop_spec results (length results) 0 (-1) (-1))
    as (idx & ns & Hloop & Hidx & Hns); [done | done | ..].
  1,2: left; split; [done |]; intros r Hr; simpl in Hr;
       by apply elem_of_nil in Hr.
  change (Z.of_nat 0) with 0 in Hloop. rewrite Hloop. clear Hloop.
  destruct (Z.eqb_spec idx (-1)) as [-> | Hne]; simpl.
  - assert (ns = -1) as ->.
    { apply (slot_inv_minus_one _ _ _ _ Hns).
      pose proof (proj1 (slot_inv_minus_one _ _ _ _ Hidx) eq_refl) as Hnone.
      intros r Hr. specialize (Hnone r Hr).
      unfold Survivor.plan_zero_scratch.
      unfold Survivor.plan_any in Hnone. by rewrite Hnone. }
    simpl. eexists _, (-1), (-1). repeat split; done.
  - exists OK, idx, ns. repeat split; try done.
    by destruct (Z.eqb_spec idx (-1)).
Qed.

End PlanFacts.

(** ** Part X.  The selector: the stated properties *)

Lemma none_ok_dec {A} (ok : A -> bool) (l : list A) :
  {none_ok ok l} + {~ none_ok ok l}.
Proof.
  destruct (List.filter ok l) as [| a l'] eqn:Hf.
  - left. by apply filter_nil_none_ok.
  - right. intros Hn. apply filter_nil_none_ok in Hn. congruence.
Qed.

Lemma not_none_ok {A} (ok : A -> bool) (l : list A) :
  (exists r, r ∈ l /\ ok r = true) <-> ~ none_ok ok l.
Proof.
  split.
  - intros (r & Hin & Hok) Hn. rewrite (Hn _ Hin) in Hok. done.
  - intros Hn. destruct (List.filter ok l) as [| a l'] eqn:Hf.
    + exfalso. apply Hn. by apply filter_nil_none_ok.
    + exists a. assert (In a (List.filter ok l)) as HIn by (rewrite Hf; by left).
      apply filter_In in HIn as [HIn Ha]. by apply list_elem_of_In in HIn.
Qed.

(** C1.  Determinism not required, at least one candidate without a failure:
    [BestCudnnConvAlgorithm] and [BestCudnnConvExecutionPlan] (on a span
    whose size fits [int]) return OK; the primary slot holds the stable
    minimum by run time over the candidates without a failure - nothing is
    faster and every such candidate earlier in the input is strictly slower -
    and, whenever some candidate without a failure needs no scratch memory,
    the no-scratch slot holds the stable minimum over those. *)
Theorem C1_fastest_survivor_first_on_ties
    (FromDurationProto : Duration -> Z)
    (results : list AutotuneResult.t) (algo : AlgorithmConfig)
    (plans : list AutotuneExecutionPlanResult.t) (idx0 idx_no_scratch0 : Z) :
  (exists r, r ∈ results /\ AutotuneResult.has_failure r = false) ->
  (exists p, p ∈ plans /\ AutotuneExecutionPlanResult.has_failure p = false) ->
  Z.of_nat (length plans) <= INT_MAX ->
  (exists out k r,
     BestCudnnConvAlgorithm FromDurationProto false results algo
     = Some (OK, out)
     /\ first_fastest
          (fun r => FromDurationProto (AutotuneResult.run_time r))
          Survivor.any results k r
     /\ holds_algorithm (algorithm_ out) r
     /\ ((exists z, z ∈ results /\ Survivor.zero_scratch z = true) ->
         exists kn rn,
           first_fastest
             (fun r => FromDurationProto (AutotuneResult.run_time r))
             Survivor.zero_scratch results kn rn
           /\ holds_algorithm (algorithm_no_scratch_ out) rn))
  /\ (exists idx idx_no_scratch k p,
        BestCudnnConvExecutionPlan FromDurationProto plans
                                   idx0 idx_no_scratch0
        = Some (OK, idx, idx_no_scratch)
        /\ idx = Z.of_nat k
        /\ first_fastest
             (fun p => FromDurationProto
                         (AutotuneExecutionPlanResult.run_time p))
             Survivor.plan_any plans k p
        /\ ((exists z, z ∈ plans /\ Survivor.plan_zero_scratch z = true) ->
            exists kn pn,
              idx_no_scratch = Z.of_nat kn
              /\ first_fastest
                   (fun p => FromDurationProto
                               (AutotuneExecutionPlanResult.run_time p))
                   Survivor.plan_zero_scratch plans kn pn)).
Proof.
  intros (r0 & Hin0 & Hr0) (p0 & Hpin0 & Hp0) Hmax. split.
  - destruct (BestCudnnConvAlgorithm_survivor FromDurationProto false
                results algo) as (out & k & r & Hrun & Hk & Hout & Hns).
    { apply not_none_ok. exists r0. split; [done |].
      unfold Survivor.any. by rewrite Hr0. }
    exists out, k, r.
    split; [exact Hrun | split; [exact Hk | split; [exact Hout |]]].
    intros Hz. destruct Hns as [[Hnone _] | Hns]; [| exact Hns].
    by apply not_none_ok in Hz.
  - destruct (BestCudnnConvExecutionPlan_spec FromDurationProto plans
                idx0 idx_no_scratch0 Hmax)
      as (st & idx & ns & Hrun & Hidx & Hns & Hst).
    assert (~ none_ok Survivor.plan_any plans) as Hsome.
    { apply not_none_ok. exists p0. split; [done |].
      unfold Survivor.plan_any. by rewrite Hp0. }
    destruct Hidx as [[-> Hnone] | (k & p & -> & Hk)]; [done |].
    destruct (Z.eqb_spec (Z.of_nat k) (-1)); [lia |]. subst st.
    exists (Z.of_nat k), ns, k, p.
    split; [exact Hrun | split; [done | split; [exact Hk |]]].
    intros Hz. destruct Hns as [[_ Hnone] | Hns]; [| exact Hns].
    by apply not_none_ok in Hz.
Qed.

(** The tie-break example of the specification: A and B both take 10 ms and
    need no scratch; A comes first and wins both slots. *)
Lemma C1_fastest_survivor_first_on_ties_witness :
  let results := [candidate 1 (ms 10) 0; candidate 2 (ms 10) 0] in
  let plans := [plan_candidate (ms 10) 0; plan_candidate (ms 10) 0] in
  ((exists r, r ∈ results /\ AutotuneResult.has_failure r = false)
   /\ (exists p, p ∈ plans
                 /\ AutotuneExecutionPlanResult.has_failure p = false)
   /\ Z.of_nat (length plans) <= INT_MAX)
  /\ BestCudnnConvAlgorithm nanoseconds false results no_algorithm
     = Some (OK, {| algorithm_ := Some {| algo_id := 1; tensor_ops := false |};
                    algorithm_no_scratch_ :=
                      Some {| algo_id := 1; tensor_ops := false |} |})
  /\ BestCudnnConvExecutionPlan nanoseconds plans 7 7 = Some (OK, 0, 0)
  /\ exists out k r,
       BestCudnnConvAlgorithm nanoseconds false results no_algorithm
       = Some (OK, out)
       /\ first_fastest (fun r => nanoseconds (AutotuneResult.run_time r))
                        Survivor.any results k r
       /\ holds_algorithm (algorithm_ out) r.
Proof.
  intros results plans.
  assert (H1 : exists r, r ∈ results /\ AutotuneResult.has_failure r = false).
  { exists (candidate 1 (ms 10) 0). split; [apply list_elem_of_here | reflexivity]. }
  assert (H2 : exists p, p ∈ plans
                 /\ AutotuneExecutionPlanResult.has_failure p = false).
  { exists (plan_candidate (ms 10) 0).
    split; [apply list_elem_of_here | reflexivity]. }
  assert (H3 : Z.of_nat (length plans) <= INT_MAX) by (vm_compute; discriminate).
  split; [done |]. split; [reflexivity |]. split; [reflexivity |].
  destruct (C1_fastest_survivor_first_on_ties nanoseconds results no_algorithm
              plans 7 7 H1 H2 H3) as [(out & k & r & Hrun & Hk & Hout & _) _].
  exists out, k, r. done.
Defined.

(** C2.  Each selector returns its not-found error exactly when every
    candidate carries a failure (an empty input included); otherwise it
    returns OK.  For [BestCudnnConvExecutionPlan] the span's size fits
    [int]. *)
Theorem C2_not_found_iff_all_failed
    (FromDurationProto : Duration -> Z) (RequireCuDNNDeterminism : bool)
    (results : list AutotuneResult.t) (algo : AlgorithmConfig)
    (plans : list AutotuneExecutionPlanResult.t) (idx0 idx_no_scratch0 : Z) :
  Z.of_nat (length plans) <= INT_MAX ->
  (exists st out,
     BestCudnnConvAlgorithm FromDurationProto RequireCuDNNDeterminism
                            results algo = Some (st, out)
     /\ (st = NotFound "No algorithm worked!"
         <-> forall r, r ∈ results -> AutotuneResult.has_failure r = true)
     /\ (st = OK
         <-> exists r, r ∈ results /\ AutotuneResult.has_failure r = false))
  /\ (exists st idx idx_no_scratch,
        BestCudnnConvExecutionPlan FromDurationProto plans
                                   idx0 idx_no_scratch0
        = Some (st, idx, idx_no_scratch)
        /\ (st = NotFound "No execution plan worked!"
            <-> forall p, p ∈ plans
                          -> AutotuneExecutionPlanResult.has_failure p = true)
        /\ (st = OK
            <-> exists p, p ∈ plans
                  /\ AutotuneExecutionPlanResult.has_failure p = false)).
Proof.
  intros Hmax. split.
  - destruct (none_ok_dec Survivor.any results) as [Hnone | Hsome].
    + eexists _, _. split.
      { by apply BestCudnnConvAlgorithm_all_failed. }
      split; split; try done.
      * intros _ r Hr. specialize (Hnone r Hr).
        unfold Survivor.any in Hnone. by apply negb_false_iff in Hnone.
      * intros (r & Hr & Hf). specialize (Hnone r Hr).
        unfold Survivor.any in Hnone. by rewrite Hf in Hnone.
    + destruct (BestCudnnConvAlgorithm_survivor FromDurationProto
                  RequireCuDNNDeterminism results algo Hsome)
        as (out & k & r & Hrun & (Hk & Hok & _) & _).
      exists OK, out. split; [done |]. split; split; try done.
      * intros Hall. apply list_elem_of_lookup_2 in Hk.
        unfold Survivor.any in Hok. by rewrite (Hall _ Hk) in Hok.
      * intros _. exists r. split; [by eapply list_elem_of_lookup_2 |].
        unfold Survivor.any in Hok. by apply negb_true_iff in Hok.
  - destruct (BestCudnnConvExecutionPlan_spec FromDurationProto plans
                idx0 idx_no_scratch0 Hmax)
      as (st & idx & ns & Hrun & Hidx & _ & Hst).
    exists st, idx, ns. split; [done |].
    pose proof (slot_inv_minus_one _ _ _ _ Hidx) as Hiff.
    destruct (Z.eqb_spec idx (-1)) as [Heq | Hne]; subst st.
    + pose proof (proj1 Hiff Heq) as Hnone.
      split; split; try done.
      * intros _ p Hp. specialize (Hnone p Hp).
        unfold Survivor.plan_any in Hnone. by apply negb_false_iff in Hnone.
      * intros (p & Hp & Hf). specialize (Hnone p Hp).
        unfold Survivor.plan_any in Hnone. by rewrite Hf in Hnone.
    + split; split; try done.
      * intros Hall. exfalso. apply Hne, Hiff. intros p Hp.
        unfold Survivor.plan_any. by rewrite (Hall p Hp).
      * intros _.
        assert (~ none_ok Survivor.plan_any plans) as Hsome
          by (intros Hnone; by apply Hne, Hiff).
        apply not_none_ok in Hsome as (p & Hp & Hok). exists p.
        split; [done |]. unfold Survivor.plan_any in Hok.
        by apply negb_true_iff in Hok.
Qed.

(** All candidates failed: both selectors report not-found. *)
Lemma C2_not_found_iff_all_failed_witness :
  let results := [failed (candidate 1 (ms 5) 0); failed (candidate 2 (ms 8) 0)] in
  let plans := [plan_failed (plan_candidate (ms 5) 0)] in
  Z.of_nat (length plans) <= INT_MAX
  /\ BestCudnnConvAlgorithm nanoseconds false results no_algorithm
     = Some (NotFound "No algorithm worked!", no_algorithm)
  /\ BestCudnnConvExecutionPlan nanoseconds plans 3 4
     = Some (NotFound "No execution plan worked!", -1, -1)
  /\ exists st out,
       BestCudnnConvAlgorithm nanoseconds false results no_algorithm
       = Some (st, out)
       /\ (st = NotFound "No algorithm worked!"
           <-> forall r, r ∈ results -> AutotuneResult.has_failure r = true).
Proof.
  intros results plans.
  assert (H : Z.of_nat (length plans) <= INT_MAX) by (vm_compute; discriminate).
  split; [exact H |]. split; [reflexivity |]. split; [reflexivity |].
  destruct (C2_not_found_iff_all_failed nanoseconds false results no_algorithm
              plans 3 4 H) as [(st & out & Hrun & Hnf & _) _].
  exists st, out. split; [exact Hrun | exact Hnf].
Defined.

(** With determinism required, [BestCudnnConvAlgorithm] takes the first
    candidate in input order of each subset. *)
Lemma BestCudnnConvAlgorithm_deterministic
    (FromDurationProto : Duration -> Z)
    (results : list AutotuneResult.t) (algo : AlgorithmConfig) :
  (exists r, r ∈ results /\ AutotuneResult.has_failure r = false) ->
  exists out k r,
    BestCudnnConvAlgorithm FromDurationProto true results algo = Some (OK, out)
    /\ first_in_order Survivor.any results k r
    /\ holds_algorithm (algorithm_ out) r
    /\ ((exists z, z ∈ results /\ Survivor.zero_scratch z = true) ->
        exists kn rn,
          first_in_order Survivor.zero_scratch results kn rn
          /\ holds_algorithm (algorithm_no_scratch_ out) rn).
Proof.
  intros (r0 & Hin0 & Hr0).
  destruct (BestCudnnConvAlgorithm_survivor FromDurationProto true
              results algo) as (out & k & r & Hrun & Hk & Hout & Hns).
  { apply not_none_ok. exists r0. split; [done |].
    unfold Survivor.any. by rewrite Hr0. }
  exists out, k, r. split; [exact Hrun |].
  split; [by apply first_fastest_const_first_in_order |].
  split; [exact Hout |].
  intros Hz. destruct Hns as [[Hnone _] | (kn & rn & Hkn & Hrn)].
  - by apply not_none_ok in Hz.
  - exists kn, rn. split; [by apply first_fastest_const_first_in_order | done].
Qed.

(** C5.  [BestCudnnConvExecutionPlan] never consults the determinism policy:
    it has no such input, and its choice is by run time whatever the policy
    is.  On a slow candidate followed by a fast one, both without failure and
    both needing no scratch, it returns position 1 for both slots, while the
    first candidate in input order of both subsets is at position 0 (and
    [BestCudnnConvAlgorithm], with determinism required, does take position
    0 on the same candidates). *)
Theorem C5_execution_plan_ignores_determinism :
  let plans := [plan_candidate (ms 10) 0; plan_candidate (ms 5) 0] in
  let results := [candidate 1 (ms 10) 0; candidate 2 (ms 5) 0] in
  BestCudnnConvExecutionPlan nanoseconds plans (-1) (-1) = Some (OK, 1, 1)
  /\ first_in_order Survivor.plan_any plans 0 (plan_candidate (ms 10) 0)
  /\ first_in_order Survivor.plan_zero_scratch plans 0
                    (plan_candidate (ms 10) 0)
  /\ BestCudnnConvAlgorithm nanoseconds true results no_algorithm
     = Some (OK, {| algorithm_ := Some {| algo_id := 1; tensor_ops := false |};
                    algorithm_no_scratch_ :=
                      Some {| algo_id := 1; tensor_ops := false |} |}).
Proof.
  intros plans results. split; [reflexivity |].
  split; [| split; [| reflexivity]].
  all: split; [reflexivity | split; [reflexivity |]]; intros; lia.
Qed.

(** C6.  With at least one candidate without a failure, whatever the
    determinism policy: both selectors return OK; the primary slot is chosen
    among all candidates without a failure, scratch or not; the no-scratch
    slot is chosen among the candidates without a failure whose scratch size
    is zero; and when there is no such candidate the no-scratch slot is not
    set - [BestCudnnConvAlgorithm] leaves [algorithm_no_scratch] as the
    caller passed it, [BestCudnnConvExecutionPlan] reports [-1]. *)
Theorem C6_primary_over_all_no_scratch_over_zero_scratch
    (FromDurationProto : Duration -> Z) (RequireCuDNNDeterminism : bool)
    (results : list AutotuneResult.t) (algo : AlgorithmConfig)
    (plans : list AutotuneExecutionPlanResult.t) (idx0 idx_no_scratch0 : Z) :
  (exists r, r ∈ results /\ AutotuneResult.has_failure r = false) ->
  (exists p, p ∈ plans /\ AutotuneExecutionPlanResult.has_failure p = false) ->
  Z.of_nat (length plans) <= INT_MAX ->
  (exists out k r,
     BestCudnnConvAlgorithm FromDurationProto RequireCuDNNDeterminism
                            results algo = Some (OK, out)
     /\ first_fastest (mode_time FromDurationProto RequireCuDNNDeterminism)
                      Survivor.any results k r
     /\ holds_algorithm (algorithm_ out) r
     /\ ((none_ok Survivor.zero_scratch results
          /\ algorithm_no_scratch_ out = algorithm_no_scratch_ algo)
         \/ (exists kn rn,
               first_fastest
                 (mode_time FromDurationProto RequireCuDNNDeterminism)
                 Survivor.zero_scratch results kn rn
               /\ holds_algorithm (algorithm_no_scratch_ out) rn)))
  /\ (exists idx idx_no_scratch k p,
        BestCudnnConvExecutionPlan FromDurationProto plans
                                   idx0 idx_no_scratch0
        = Some (OK, idx, idx_no_scratch)
        /\ idx = Z.of_nat k
        /\ first_fastest
             (fun p => FromDurationProto
                         (AutotuneExecutionPlanResult.run_time p))
             Survivor.plan_any plans k p
        /\ ((none_ok Survivor.plan_zero_scratch plans
             /\ idx_no_scratch = -1)
            \/ (exists kn pn,
                  idx_no_scratch = Z.of_nat kn
                  /\ first_fastest
                       (fun p => FromDurationProto
                                   (AutotuneExecutionPlanResult.run_time p))
                       Survivor.plan_zero_scratch plans kn pn))).
Proof.
  intros (r0 & Hin0 & Hr0) (p0 & Hpin0 & Hp0) Hmax. split.
  - apply BestCudnnConvAlgorithm_survivor.
    apply not_none_ok. exists r0. split; [done |].
    unfold Survivor.any. by rewrite Hr0.
  - destruct (BestCudnnConvExecutionPlan_spec FromDurationProto plans
                idx0 idx_no_scratch0 Hmax)
      as (st & idx & ns & Hrun & Hidx & Hns & Hst).
    assert (~ none_ok Survivor.plan_any plans) as Hsome.
    { apply not_none_ok. exists p0. split; [done |].
      unfold Survivor.plan_any. by rewrite Hp0. }
    destruct Hidx as [[-> Hnone] | (k & p & -> & Hk)]; [done |].
    destruct (Z.eqb_spec (Z.of_nat k) (-1)); [lia |]. subst st.
    exists (Z.of_nat k), ns, k, p.
    split; [exact Hrun | split; [done | split; [exact Hk |]]].
    destruct Hns as [[-> Hnone] | Hns]; [left; done | right; exact Hns].
Qed.

(** The scratch-partition example of the specification: A takes 5 ms and
    needs 128 bytes of scratch, B takes 8 ms and needs none; the primary
    slot is A and the no-scratch slot is B.  Without B, the no-scratch slot
    is not set. *)
Lemma C6_primary_over_all_no_scratch_over_zero_scratch_witness :
  let results := [candidate 1 (ms 5) 128; candidate 2 (ms 8) 0] in
  let plans := [plan_candidate (ms 5) 128; plan_candidate (ms 8) 0] in
  ((exists r, r ∈ results /\ AutotuneResult.has_failure r = false)
   /\ (exists p, p ∈ plans
                 /\ AutotuneExecutionPlanResult.has_failure p = false)
   /\ Z.of_nat (length plans) <= INT_MAX)
  /\ BestCudnnConvAlgorithm nanoseconds false results no_algorithm
     = Some (OK, {| algorithm_ := Some {| algo_id := 1; tensor_ops := false |};
                    algorithm_no_scratch_ :=
                      Some {| algo_id := 2; tensor_ops := false |} |})
  /\ BestCudnnConvExecutionPlan nanoseconds plans (-1) (-1) = Some (OK, 0, 1)
  /\ BestCudnnConvAlgorithm nanoseconds false [candidate 1 (ms 5) 128]
                            no_algorithm
     = Some (OK, {| algorithm_ := Some {| algo_id := 1; tensor_ops := false |};
                    algorithm_no_scratch_ := None |})
  /\ BestCudnnConvExecutionPlan nanoseconds [plan_candidate (ms 5) 128] 0 0
     = Some (OK, 0, -1)
  /\ exists out k r,
       BestCudnnConvAlgorithm nanoseconds false results no_algorithm
       = Some (OK, out)
       /\ first_fastest (mode_time nanoseconds false) Survivor.any results k r
       /\ holds_algorithm (algorithm_ out) r.
Proof.
  intros results plans.
  assert (H1 : exists r, r ∈ results /\ AutotuneResult.has_failure r = false).
  { exists (candidate 1 (ms 5) 128).
    split; [apply list_elem_of_here | reflexivity]. }
  assert (H2 : exists p, p ∈ plans
                 /\ AutotuneExecutionPlanResult.has_failure p = false).
  { exists (plan_candidate (ms 5) 128).
    split; [apply list_elem_of_here | reflexivity]. }
  assert (H3 : Z.of_nat (length plans) <= INT_MAX) by (vm_compute; discriminate).
  split; [done |]. do 4 (split; [reflexivity |]).
  destruct (C6_primary_over_all_no_scratch_over_zero_scratch nanoseconds false
              results no_algorithm plans (-1) (-1) H1 H2 H3)
    as [(out & k & r & Hrun & Hk & Hout & _) _].
  exists out, k, r. done.
Defined.

(** C10.  The outputs when the selector reports not-found.
    [BestCudnnConvAlgorithm] returns the caller's [AlgorithmConfig] exactly
    as it was passed.  [BestCudnnConvExecutionPlan] (on a span whose size
    fits [int]) overwrites both indices whatever they held on entry; on
    every return the primary index is [-1] exactly when no candidate is
    without failure and the no-scratch index is [-1] exactly when no
    candidate is without failure and with zero scratch, so on not-found
    both are [-1]. *)
Theorem C10_outputs_on_not_found
    (FromDurationProto : Duration -> Z) (RequireCuDNNDeterminism : bool)
    (results : list AutotuneResult.t) (algo : AlgorithmConfig)
    (plans : list AutotuneExecutionPlanResult.t) (idx0 idx_no_scratch0 : Z) :
  Z.of_nat (length plans) <= INT_MAX ->
  (exists st out,
     BestCudnnConvAlgorithm FromDurationProto RequireCuDNNDeterminism
                            results algo = Some (st, out)
     /\ (st <> OK -> out = algo))
  /\ (exists st idx idx_no_scratch,
        BestCudnnConvExecutionPlan FromDurationProto plans
                                   idx0 idx_no_scratch0
        = Some (st, idx, idx_no_scratch)
        /\ (forall idx0' idx_no_scratch0',
              BestCudnnConvExecutionPlan FromDurationProto plans
                                         idx0' idx_no_scratch0'
              = Some (st, idx, idx_no_scratch))
        /\ (idx = -1 <-> none_ok Survivor.plan_any plans)
        /\ (idx_no_scratch = -1
            <-> none_ok Survivor.plan_zero_scratch plans)
        /\ (st <> OK -> idx = -1 /\ idx_no_scratch = -1)).
Proof.
  intros Hmax. split.
  - destruct (none_ok_dec Survivor.any results) as [Hnone | Hsome].
    + eexists _, algo. split; [| done].
      by apply BestCudnnConvAlgorithm_all_failed.
    + destruct (BestCudnnConvAlgorithm_survivor FromDurationProto
                  RequireCuDNNDeterminism results algo Hsome)
        as (out & k & r & Hrun & _).
      exists OK, out. split; [exact Hrun | done].
  - destruct (BestCudnnConvExecutionPlan_spec FromDurationProto plans
                idx0 idx_no_scratch0 Hmax)
      as (st & idx & ns & Hrun & Hidx & Hns & Hst).
    exists st, idx, ns. split; [exact Hrun |]. split; [intros; exact Hrun |].
    split; [by eapply slot_inv_minus_one |].
    split; [by eapply slot_inv_minus_one |].
    intros Hnok. destruct (Z.eqb_spec idx (-1)) as [-> | _]; [| done].
    split; [done |]. apply (slot_inv_minus_one _ _ _ _ Hns).
    pose proof (proj1 (slot_inv_minus_one _ _ _ _ Hidx) eq_refl) as Hnone.
    intros r Hr. specialize (Hnone r Hr).
    unfold Survivor.plan_zero_scratch.
    unfold Survivor.plan_any in Hnone. by rewrite Hnone.
Qed.

(** All candidates failed: the config comes back as passed, and both
    indices, 3 and 4 on entry, are [-1] on return. *)
Lemma C10_outputs_on_not_found_witness :
  let results := [failed (candidate 1 (ms 5) 0)] in
  let plans := [plan_failed (plan_candidate (ms 5) 0)] in
  let algo := {| algorithm_ := Some {| algo_id := 9; tensor_ops := true |};
                 algorithm_no_scratch_ := None |} in
  Z.of_nat (length plans) <= INT_MAX
  /\ BestCudnnConvAlgorithm nanoseconds false results algo
     = Some (NotFound "No algorithm worked!", algo)
  /\ BestCudnnConvExecutionPlan nanoseconds plans 3 4
     = Some (NotFound "No execution plan worked!", -1, -1)
  /\ exists st out,
       BestCudnnConvAlgorithm nanoseconds false results algo = Some (st, out)
       /\ (st <> OK -> out = algo).
Proof.
  intros results plans algo.
  assert (H : Z.of_nat (length plans) <= INT_MAX) by (vm_compute; discriminate).
  split; [exact H |]. split; [reflexivity |]. split; [reflexivity |].
  exact (proj1 (C10_outputs_on_not_found nanoseconds false results algo
                  plans 3 4 H)).
Defined.

(** ** Part XI.  The graph-exec cache: facts *)

Lemma node_value_None (l : list (nat * Z)) n :
  n ∉ l.*1 -> node_value l n = None.
Proof.
  induction l as [| [m v] l IH]; [done |]. simpl. intros Hn.
  apply not_elem_of_cons in Hn as [Hne Hn].
  destruct (Nat.eqb_spec m n); [congruence | by apply IH].
Qed.

Lemma node_value_Some_elem (l : list (nat * Z)) n v :
  node_value l n = Some v -> (n, v) ∈ l.
Proof.
  induction l as [| [m w] l IH]; [done |]. simpl.
  destruct (Nat.eqb_spec m n) as [-> | _].
  - intros [= ->]. apply list_elem_of_here.
  - intros H. apply list_elem_of_further. by apply IH.
Qed.

Lemma node_value_Some_find (l : list (nat * Z)) n v :
  node_value l n = Some v -> find_value l v <> End.
Proof.
  induction l as [| [m w] l IH]; [done |]. simpl.
  destruct (Nat.eqb m n).
  - intros [= ->]. by rewrite Z.eqb_refl.
  - intros H. destruct (w =? v); [done | by apply IH].
Qed.

Lemma filter_fst_subset (f : nat * Z -> bool) (l : list (nat * Z)) n :
  n ∈ (List.filter f l).*1 -> n ∈ l.*1.
Proof.
  intros Hin. apply list_elem_of_fmap in Hin as ([m v] & -> & Hin).
  apply list_elem_of_In, filter_In in Hin as [Hin _].
  apply list_elem_of_In in Hin. by apply (list_elem_of_fmap_2 fst) in Hin.
Qed.

Lemma NoDup_filter_fst (f : nat * Z -> bool) (l : list (nat * Z)) :
  NoDup l.*1 -> NoDup (List.filter f l).*1.
Proof.
  induction l as [| [m v] l IH]; [done |]. simpl. intros Hnd.
  apply NoDup_cons in Hnd as [Hm Hnd]. destruct (f (m, v)); [| by apply IH].
  simpl. apply NoDup_cons. split; [| by apply IH].
  intros Hin. by apply filter_fst_subset in Hin.
Qed.

Lemma back_pop_back (c : MutexedGraphExecCache) n h :
  back c = Some (n, h) ->
  gpu_exec_graphs_ c = gpu_exec_graphs_ (pop_back c) ++ [(n, h)].
Proof.
  unfold back. intros Hlast. apply last_Some in Hlast as [l' Hl'].
  simpl. rewrite Hl'. by rewrite removelast_last.
Qed.

Lemma nodes_distinct_empty : nodes_distinct empty_cache.
Proof. split; [constructor | intros n v Hin; by apply elem_of_nil in Hin]. Qed.

Lemma nodes_distinct_push_front v c :
  nodes_distinct c -> nodes_distinct (push_front v c).
Proof.
  intros [Hnd Hlt]. split; simpl.
  - apply NoDup_cons. split; [| done]. intros Hin.
    apply list_elem_of_fmap in Hin as ([m w] & Heq & Hin). simpl in Heq.
    subst m. specialize (Hlt _ _ Hin). lia.
  - intros n w Hin. apply elem_of_cons in Hin as [[= -> ->] | Hin]; [lia |].
    specialize (Hlt _ _ Hin). lia.
Qed.

Lemma nodes_distinct_pop_back c :
  nodes_distinct c -> nodes_distinct (pop_back c).
Proof.
  intros [Hnd Hlt]. destruct (back c) as [[n h] |] eqn:Hback.
  - apply back_pop_back in Hback. rewrite Hback in Hnd, Hlt.
    rewrite fmap_app in Hnd. apply NoDup_app in Hnd as (Hnd & _ & _).
    split; [done |]. intros m w Hin. apply (Hlt m w).
    apply elem_of_app. by left.
  - apply last_None in Hback. unfold pop_back. rewrite Hback. simpl.
    unfold nodes_distinct in *. simpl. by rewrite Hback in Hnd, Hlt.
Qed.

Lemma nodes_distinct_list_remove v c :
  nodes_distinct c -> nodes_distinct (list_remove v c).
Proof.
  intros [Hnd Hlt]. split; simpl; [by apply NoDup_filter_fst |].
  intros n w Hin. apply list_elem_of_In, filter_In in Hin as [Hin _].
  apply list_elem_of_In in Hin. by apply (Hlt n w).
Qed.

Lemma nodes_distinct_update_cache key g c :
  nodes_distinct c -> nodes_distinct (update_cache key g c).
Proof.
  intros Hwf. unfold update_cache, index_begin.
  apply (nodes_distinct_push_front g) in Hwf.
  destruct (over_capacity (push_front g c)); [| exact Hwf].
  unfold evict_back.
  assert (nodes_distinct (destroy_back (push_front g c))) as Hd.
  { unfold destroy_back. by destruct (back (push_front g c)) as [[? ?] |]. }
  apply nodes_distinct_pop_back in Hd. exact Hd.
Qed.

(** *** [get_exec_graph], case by case *)

Lemma get_exec_graph_unindexed key c :
  gpu_key_to_exec_graphs_map_ c !! key = None ->
  get_exec_graph key c = Some (nullptr, c).
Proof. intros H. unfold get_exec_graph. by rewrite H. Qed.

(** On a live key: the stored graph is returned, every node holding it is
    erased, one new node holding it goes to the front and the key designates
    that node. *)
Lemma get_exec_graph_live key c pos g :
  gpu_key_to_exec_graphs_map_ c !! key = Some pos ->
  deref c pos = Some g ->
  get_exec_graph key c
  = Some (g, index_begin key (push_front g (list_remove g c))).
Proof.
  intros Hkey Hderef. unfold get_exec_graph. rewrite Hkey, Hderef.
  destruct pos as [n |]; [| done]. simpl in Hderef.
  apply node_value_Some_find in Hderef.
  destruct (find_value (gpu_exec_graphs_ c) g); done.
Qed.

(** On a stale key: the stored iterator is dereferenced before anything
    else is looked at. *)
Lemma get_exec_graph_stale key c :
  stale_key c key -> get_exec_graph key c = None.
Proof.
  intros (pos & Hkey & Hderef). unfold get_exec_graph.
  by rewrite Hkey, Hderef.
Qed.

(** Whenever [get_exec_graph] is defined it erases nothing from the index:
    the branch that erases the key is entered only after a dereference that
    is undefined on a stale key and finds its value on a live one. *)
Lemma get_exec_graph_keeps_index key c v c' :
  get_exec_graph key c = Some (v, c') ->
  forall k, is_Some (gpu_key_to_exec_graphs_map_ c !! k) ->
            is_Some (gpu_key_to_exec_graphs_map_ c' !! k).
Proof.
  intros Hget k Hk.
  destruct (gpu_key_to_exec_graphs_map_ c !! key) as [pos |] eqn:Hkey.
  - destruct (deref c pos) as [g |] eqn:Hderef.
    + rewrite (get_exec_graph_live _ _ _ _ Hkey Hderef) in Hget.
      injection Hget as <- <-. simpl.
      destruct (decide (key = k)) as [-> | Hne].
      * rewrite lookup_insert_eq. by eexists.
      * by rewrite lookup_insert_ne.
    + rewrite get_exec_graph_stale in Hget; [done |]. by exists pos.
  - rewrite (get_exec_graph_unindexed _ _ Hkey) in Hget.
    by injection Hget as <- <-.
Qed.

Lemma nodes_distinct_get_exec_graph key c v c' :
  nodes_distinct c -> get_exec_graph key c = Some (v, c') ->
  nodes_distinct c'.
Proof.
  intros Hwf Hget.
  destruct (gpu_key_to_exec_graphs_map_ c !! key) as [pos |] eqn:Hkey.
  - destruct (deref c pos) as [g |] eqn:Hderef.
    + rewrite (get_exec_graph_live _ _ _ _ Hkey Hderef) in Hget.
      injection Hget as <- <-.
      by apply (nodes_distinct_push_front g), nodes_distinct_list_remove.
    + rewrite get_exec_graph_stale in Hget; [done |]. by exists pos.
  - rewrite (get_exec_graph_unindexed _ _ Hkey) in Hget.
    by injection Hget as <- <-.
Qed.

Lemma nodes_distinct_cache_run ops c c' :
  nodes_distinct c -> cache_run ops c = Some c' -> nodes_distinct c'.
Proof.
  revert c. induction ops as [| o ops IH]; intros c Hwf Hrun; simpl in Hrun.
  - by injection Hrun as <-.
  - destruct (cache_step c o) as [c1 |] eqn:Hstep; [| done].
    apply (IH c1); [| done]. destruct o as [key g | key]; simpl in Hstep.
    + injection Hstep as <-. by apply nodes_distinct_update_cache.
    + destruct (get_exec_graph key c) as [[v c2] |] eqn:Hget; [| done].
      injection Hstep as <-. by eapply nodes_distinct_get_exec_graph.
Qed.

(** ** Part XII.  The graph-exec cache: the stated properties *)

(** C3, as amended.  [update_cache key g] pushes the new entry at the front
    of the list.  If the size now exceeds the capacity (read as an unsigned
    64-bit value) it calls [DestroyExecutableGraph] on the graph of the back
    node and then pops exactly that node; otherwise it releases and removes
    nothing.  Last it makes [key] designate the list's [begin()] and changes
    no other index entry: no key is removed from the index, so a key that
    designated the evicted node stays in the index, stale. *)
Theorem C3_put_front_evict_back_index_kept
    (key g : Z) (c : MutexedGraphExecCache) :
  nodes_distinct c ->
  let c1 := push_front g c in
  let c' := update_cache key g c in
  gpu_exec_graphs_ c1 = (next_node_ c, g) :: gpu_exec_graphs_ c
  /\ (over_capacity c1 = false ->
      gpu_exec_graphs_ c' = gpu_exec_graphs_ c1
      /\ driver_calls_ c' = driver_calls_ c
      /\ list_begin c' = It (next_node_ c))
  /\ (over_capacity c1 = true ->
      exists n h,
        back c1 = Some (n, h)
        /\ c' = index_begin key
                  (pop_back (DestroyExecutableGraph (gpu_context_ c) h c1))
        /\ gpu_exec_graphs_ c1 = gpu_exec_graphs_ c' ++ [(n, h)]
        /\ driver_calls_ c'
           = driver_calls_ c
             ++ [{| call_context := gpu_context_ c; call_exec := h |}]
        /\ deref c' (It n) = None
        /\ forall k, k <> key ->
             gpu_key_to_exec_graphs_map_ c !! k = Some (It n) ->
             stale_key c' k)
  /\ gpu_key_to_exec_graphs_map_ c'
     = <[key := list_begin c']> (gpu_key_to_exec_graphs_map_ c).
Proof.
  intros Hwf c1 c'. split; [done |].
  assert (nodes_distinct c1) as Hwf1 by (by apply nodes_distinct_push_front).
  split; [| split].
  - intros Hcap. subst c'. unfold update_cache. fold c1. rewrite Hcap. done.
  - intros Hcap. subst c'. unfold update_cache. fold c1. rewrite Hcap.
    destruct (back c1) as [[n h] |] eqn:Hback.
    2:{ apply last_None in Hback. done. }
    exists n, h. split; [done |].
    unfold evict_back, destroy_back. rewrite Hback.
    change (gpu_context_ c1) with (gpu_context_ c).
    split; [done |].
    pose proof (back_pop_back _ _ _ Hback) as Hsplit.
    split; [exact Hsplit |]. split; [done |].
    assert (node_value (removelast (gpu_exec_graphs_ c1)) n = None) as Hgone.
    { apply node_value_None. destruct Hwf1 as [Hnd _].
      rewrite Hsplit, fmap_app in Hnd. apply NoDup_app in Hnd as (_ & Hnd & _).
      intros Hin. apply (Hnd _ Hin). simpl. apply list_elem_of_here. }
    split; [exact Hgone |].
    intros k Hne Hk. exists (It n). split; [| exact Hgone].
    simpl. by rewrite lookup_insert_ne.
  - subst c'. unfold update_cache. fold c1.
    destruct (over_capacity c1); [| done].
    unfold evict_back, destroy_back. by destruct (back c1) as [[? ?] |].
Qed.

(** The second [update_cache] on a cache of capacity 1: the graph 100 of key
    10 is released, its node is popped, and key 10 is left stale. *)
Lemma C3_put_front_evict_back_index_kept_witness :
  nodes_distinct cache_one_entry
  /\ gpu_exec_graphs_ cache_after_eviction = [(1%nat, 200)]
  /\ driver_calls_ cache_after_eviction
     = [{| call_context := nullptr; call_exec := 100 |}]
  /\ gpu_key_to_exec_graphs_map_ cache_after_eviction
     = <[20 := It 1]> (gpu_key_to_exec_graphs_map_ cache_one_entry).
Proof.
  assert (H : nodes_distinct cache_one_entry).
  { apply nodes_distinct_update_cache. exact nodes_distinct_empty. }
  split; [exact H |]. split; [reflexivity |]. split; [reflexivity |].
  exact (proj2 (proj2 (proj2
           (C3_put_front_evict_back_index_kept 20 200 cache_one_entry H)))).
Defined.

(** C3 as stated fails on the code: after the [update_cache] that evicts the
    entry of key 10 (its graph has been released and its node popped), key
    10 is still in the index, and [get_exec_graph 10] does not return
    absent: it dereferences the iterator to the popped node. *)
Lemma C3_put_removes_evicted_key_counterexample :
  gpu_exec_graphs_ cache_one_entry = [(0%nat, 100)]
  /\ gpu_exec_graphs_ cache_after_eviction = [(1%nat, 200)]
  /\ driver_calls_ cache_after_eviction
     = [{| call_context := nullptr; call_exec := 100 |}]
  /\ gpu_key_to_exec_graphs_map_ cache_after_eviction !! 10 = Some (It 0)
  /\ ~ (exists c, get_exec_graph 10 cache_after_eviction = Some (nullptr, c)).
Proof.
  do 4 (split; [reflexivity |]). intros [c Hc]. vm_compute in Hc. discriminate.
Qed.

(** C4.  The key 10 of [cache_after_eviction] is in the index and its entry
    has been evicted from the list.  [get_exec_graph 10] reads
    [*(gpu_key_to_exec_graphs_map_[key])] to have a value for [std::find]:
    that iterator designates the popped node and the read is undefined.
    Nothing is erased from the index and no absent result is produced.  (A
    key whose entry is in the list behaves as C4 says: see
    [get_exec_graph_live].) *)
Theorem C4_get_on_evicted_key_dereferences_popped_node :
  gpu_key_to_exec_graphs_map_ cache_after_eviction !! 10 = Some (It 0)
  /\ deref cache_after_eviction (It 0) = None
  /\ stale_key cache_after_eviction 10
  /\ get_exec_graph 10 cache_after_eviction = None
  /\ get_exec_graph 20 cache_after_eviction
     = Some (200, index_begin 20
                    (push_front 200 (list_remove 200 cache_after_eviction))).
Proof.
  split; [reflexivity |]. split; [reflexivity |].
  assert (stale_key cache_after_eviction 10) as Hstale.
  { exists (It 0). split; reflexivity. }
  split; [exact Hstale |]. split; [by apply get_exec_graph_stale |].
  by apply get_exec_graph_live with (It 1).
Qed.

(** C7.  From the empty cache with capacity 1, [Put 10 100; Put 20 200]
    leaves key 10 stale, by eviction; the next [Get 10] does not heal the
    index: it is undefined, as is [get_exec_graph] on every stale key
    ([get_exec_graph_stale]), and no defined [get_exec_graph] erases a key
    ([get_exec_graph_keeps_index]).  A stale key also arises without any
    eviction: with capacity 2, [Put 10 100; Put 20 100; Get 10] erases both
    nodes holding 100 and leaves key 20 stale with no graph released. *)
Theorem C7_stale_index_is_not_healed :
  (exists c, cache_run [Put 10 100; Put 20 200] (set_cache_size 1 empty_cache)
             = Some c
             /\ stale_key c 10 /\ ~ index_consistent c)
  /\ cache_run [Put 10 100; Put 20 200; Get 10] (set_cache_size 1 empty_cache)
     = None
  /\ (exists c, cache_run [Put 10 100; Put 20 100; Get 10]
                          (set_cache_size 2 empty_cache) = Some c
                /\ driver_calls_ c = []
                /\ stale_key c 20).
Proof.
  split; [| split].
  - exists cache_after_eviction. split; [reflexivity |].
    assert (stale_key cache_after_eviction 10) as Hstale
      by (exists (It 0); split; reflexivity).
    split; [exact Hstale |]. intros Hcons.
    destruct (Hcons 10 (It 0)) as [v Hv]; [reflexivity |].
    vm_compute in Hv. discriminate.
  - reflexivity.
  - eexists. split; [vm_compute; reflexivity |]. split; [reflexivity |].
    exists (It 1). split; reflexivity.
Qed.

(** ** Part XIII.  Best-effort redzone checks: facts and the stated property *)

Lemma times_logged_LOG f l p :
  times_logged f (LOG l p) = (times_logged f p + b2n (f l))%nat.
Proof.
  unfold times_logged, LOG. simpl. rewrite List.filter_app, length_app.
  simpl. by destruct (f l).
Qed.

Lemma once_bounds_LOG l p :
  is_allocation_failed l = false -> is_check_failed l = false ->
  once_bounds p -> once_bounds (LOG l p).
Proof.
  intros H1 H2 [Ha Hc]. split; rewrite times_logged_LOG.
  - rewrite H1. simpl. lia.
  - rewrite H2. simpl. lia.
Qed.

Lemma once_bounds_allocation_failed p :
  once_bounds p ->
  once_bounds (call_once rz_allocation_failure_logged_flag
                         (LOG WarnRedzoneAllocationFailed) p).
Proof.
  intros [Ha Hc]. unfold call_once. simpl.
  destruct (rz_allocation_failure_logged p) eqn:Hflag.
  - split; [by rewrite Hflag | done].
  - split.
    + change (times_logged is_allocation_failed
                (LOG WarnRedzoneAllocationFailed p) <= 1)%nat.
      rewrite times_logged_LOG. simpl in *. lia.
    + change (times_logged is_check_failed
                (LOG WarnRedzoneAllocationFailed p)
              <= b2n (failure_logged_AutotuneResult p)
                 + b2n (failure_logged_AutotuneExecutionPlanResult p))%nat.
      rewrite times_logged_LOG. simpl. lia.
Qed.

Lemma once_bounds_check_failed_AutotuneResult m p :
  once_bounds p ->
  once_bounds (call_once failure_logged_AutotuneResult_flag
                         (LOG (WarnRedzoneCheckFailed m)) p).
Proof.
  intros [Ha Hc]. unfold call_once. simpl.
  destruct (failure_logged_AutotuneResult p) eqn:Hflag.
  - split; [done | by rewrite Hflag].
  - split.
    + change (times_logged is_allocation_failed
                (LOG (WarnRedzoneCheckFailed m) p)
              <= b2n (rz_allocation_failure_logged p))%nat.
      rewrite times_logged_LOG. simpl. lia.
    + change (times_logged is_check_failed
                (LOG (WarnRedzoneCheckFailed m) p)
              <= 1 + b2n (failure_logged_AutotuneExecutionPlanResult p))%nat.
      rewrite times_logged_LOG. simpl in *. lia.
Qed.

Lemma once_bounds_check_failed_AutotuneExecutionPlanResult m p :
  once_bounds p ->
  once_bounds (call_once failure_logged_AutotuneExecutionPlanResult_flag
                         (LOG (WarnRedzoneCheckFailed m)) p).
Proof.
  intros [Ha Hc]. unfold call_once. simpl.
  destruct (failure_logged_AutotuneExecutionPlanResult p) eqn:Hflag.
  - split; [done | by rewrite Hflag].
  - split.
    + change (times_logged is_allocation_failed
                (LOG (WarnRedzoneCheckFailed m) p)
              <= b2n (rz_allocation_failure_logged p))%nat.
      rewrite times_logged_LOG. simpl. lia.
    + change (times_logged is_check_failed
                (LOG (WarnRedzoneCheckFailed m) p)
              <= b2n (failure_logged_AutotuneResult p) + 1)%nat.
      rewrite times_logged_LOG. simpl in *. lia.
Qed.

Lemma once_bounds_step p c :
  once_bounds p -> once_bounds (redzone_step p c).
Proof.
  intros Hp.
  destruct c as [e alloc b | e s r | e s r]; simpl;
    unfold WrapRedzoneBestEffort, CheckRedzones;
    destruct (RedzoneCheckDisabled e); simpl; try done.
  - destruct (alloc (size b)); simpl; [done |].
    by apply once_bounds_allocation_failed.
  - destruct s as [status | m]; simpl.
    + destruct (rz_ok status); simpl; [done |].
      by do 2 (apply once_bounds_LOG; [done | done |]).
    + by apply once_bounds_check_failed_AutotuneResult.
  - destruct s as [status | m]; simpl.
    + destruct (rz_ok status); simpl; [done |].
      by do 2 (apply once_bounds_LOG; [done | done |]).
    + by apply once_bounds_check_failed_AutotuneExecutionPlanResult.
Qed.

Lemma once_bounds_run calls p :
  once_bounds p -> once_bounds (redzone_run calls p).
Proof.
  revert p. induction calls as [| c calls IH]; intros p Hp; [done |].
  simpl. apply IH. by apply once_bounds_step.
Qed.

(** Over any sequence of calls in one process, the allocation warning of
    [WrapRedzoneBestEffort] is logged at most once, and the check warning of
    [CheckRedzones] at most twice: once per instantiation. *)
Lemma redzone_warnings_bounded calls :
  (times_logged is_allocation_failed (redzone_run calls process_start) <= 1)%nat
  /\ (times_logged is_check_failed (redzone_run calls process_start) <= 2)%nat.
Proof.
  destruct (once_bounds_run calls process_start) as [Ha Hc].
  { split; unfold times_logged; simpl; lia. }
  split.
  - destruct (rz_allocation_failure_logged _); simpl in Ha; lia.
  - destruct (failure_logged_AutotuneResult _),
             (failure_logged_AutotuneExecutionPlanResult _); simpl in Hc; lia.
Qed.

(** A failing check degrades gracefully: the caller gets its own buffer
    back, respectively its result untouched. *)
Lemma WrapRedzoneBestEffort_allocation_failed e alloc buffer p m :
  alloc (size buffer) = ErrorStatus m ->
  fst (WrapRedzoneBestEffort e alloc buffer p) = buffer.
Proof.
  intros Halloc. unfold WrapRedzoneBestEffort.
  destruct (RedzoneCheckDisabled e); [done |]. by rewrite Halloc.
Qed.

Lemma CheckRedzones_check_failed {T} `{RedzoneResult T} e m (r : T) p :
  fst (CheckRedzones e (ErrorStatus m) r p) = r.
Proof. unfold CheckRedzones. by destruct (RedzoneCheckDisabled e). Qed.

(** C9.  A process in which the redzone check fails once under
    [CheckRedzones<AutotuneResult>] and once under
    [CheckRedzones<AutotuneExecutionPlanResult>]: each instantiation has a
    [failure_logged] flag of its own, both still unset, so the warning that
    says it "will only be printed once" is in the log twice.  Both calls
    return the result unchanged. *)
Theorem C9_check_warning_logged_once_per_instantiation :
  let r := candidate 1 (ms 5) 0 in
  let q := plan_candidate (ms 5) 0 in
  let calls :=
    [CallCheckRedzones_AutotuneResult None (ErrorStatus "launch failed") r;
     CallCheckRedzones_AutotuneExecutionPlanResult None
       (ErrorStatus "launch failed") q] in
  log (redzone_run calls process_start)
  = [WarnRedzoneCheckFailed "launch failed";
     WarnRedzoneCheckFailed "launch failed"]
  /\ times_logged is_check_failed (redzone_run calls process_start) = 2%nat
  /\ fst (CheckRedzones None (ErrorStatus "launch failed") r process_start) = r
  /\ fst (CheckRedzones None (ErrorStatus "launch failed") q
            (redzone_run [CallCheckRedzones_AutotuneResult None
                            (ErrorStatus "launch failed") r] process_start))
     = q.
Proof. repeat split; reflexivity. Qed.

(** ** Part XIV.  The run loop: the stated property *)

(** A run on a matching device does touch the world: with a schedule of one
    thunk the trace grows. *)
Lemma ExecuteThunks_emits t rest allocs w :
  exists e w', ExecuteThunks (t :: rest) allocs w = (e, w')
               /\ exists more, events w' = events w ++ ThunkExecuted (thunk_id t) :: more.
Proof.
  revert t w. induction rest as [| t' rest IH]; intros t w; simpl.
  - destruct (ExecuteOnStream t allocs (device_memory w)); simpl;
      eexists _, _; (split; [done |]); exists []; done.
  - destruct (ExecuteOnStream t allocs (device_memory w)) as [m |] eqn:Ht.
    + destruct (IH t' (with_memory m (emit (ThunkExecuted (thunk_id t)) w)))
        as (e & w' & Hrun & more & Hev).
      simpl in Hrun. exists e, w'. split; [exact Hrun |].
      eexists. rewrite Hev. simpl. by rewrite <- app_assoc.
    + eexists _, _. split; [done |]. exists []. done.
Qed.

(** C8.  A call of [ExecuteAsyncOnStream] on a device whose version differs
    from the one the executable was built for returns the capability
    mismatch error and leaves the world - device memory, both caches, and
    the trace of loads, thunk executions, captures and replays - exactly as
    it was. *)
Theorem C8_capability_mismatch_fails_before_anything_runs
    (exe : GpuExecutable) (run_options : ServiceExecutableRunOptions)
    (arguments : gmap Z Z) (w : World) :
  device_version (stream_executor run_options) <> gpu_version_ exe ->
  ExecuteAsyncOnStream exe run_options arguments w
  = (inl CapabilityMismatch, w).
Proof.
  intros Hne. unfold ExecuteAsyncOnStream,
    CheckCompatibilityWithServiceExecutableRunOptions.
  by destruct (decide _).
Qed.

(** An executable built for compute capability 7.0 with one thunk that
    writes 1 at address 0, run on a device of capability 8.0: the call
    fails and neither memory nor trace changes; on a 7.0 device the same
    call runs the thunk. *)
Lemma C8_capability_mismatch_fails_before_anything_runs_witness :
  let exe := {| gpu_version_ := CudaComputeCapability 7 0;
                thunk_schedule_ :=
                  [{| thunk_id := 0%nat; host_callback := false;
                      ExecuteOnStream := fun _ m => Some (<[0 := 1]> m) |}];
                can_use_gpu_graph_capture_ := false;
                config_key := fun _ => 0 |} in
  let device v := {| stream_executor :=
                       {| device_ordinal_of := 0; device_version := v;
                          LoadModule := Some ∅ |};
                     dont_block_host := true |} in
  let w := {| device_memory := ∅; module_globals_ := ∅;
              gpu_exec_graphs_cache_ := ∅; events := [] |} in
  device_version (stream_executor (device (CudaComputeCapability 8 0)))
  <> gpu_version_ exe
  /\ ExecuteAsyncOnStream exe (device (CudaComputeCapability 8 0)) ∅ w
     = (inl CapabilityMismatch, w)
  /\ events (snd (ExecuteAsyncOnStream exe
                    (device (CudaComputeCapability 7 0)) ∅ w))
     = [ModuleLoaded 0; ThunkExecuted 0].
Proof.
  intros exe device w.
  assert (H : device_version
                (stream_executor (device (CudaComputeCapability 8 0)))
              <> gpu_version_ exe) by (simpl; discriminate).
  split; [exact H |]. split; [| reflexivity].
  exact (C8_capability_mismatch_fails_before_anything_runs
           exe (device (CudaComputeCapability 8 0)) ∅ w H).
Defined.

(** ** Part XV.  More about the selector *)

Lemma first_fastest_subset {A} (time : A -> Z) (ok ok' : A -> bool)
    (l : list A) k r :
  (forall a, ok' a = true -> ok a = true) ->
  first_fastest time ok l k r -> ok' r = true ->
  first_fastest time ok' l k r.
Proof.
  intros Hsub (Hk & _ & Hmin) Hr. split; [done | split; [done |]].
  intros j rj Hj Hrj. apply Hmin; [done | by apply Hsub].
Qed.

Lemma first_fastest_fmap {A B} (f : A -> B) (time : B -> Z) (ok : B -> bool)
    (l : list A) k p :
  first_fastest time ok (f <$> l) k p ->
  exists r, p = f r
            /\ first_fastest (fun a => time (f a)) (fun a => ok (f a)) l k r.
Proof.
  intros (Hk & Hok & Hmin). rewrite list_lookup_fmap in Hk.
  destruct (l !! k) as [r |] eqn:Hr; [| done]. injection Hk as <-.
  exists r. split; [done |]. split; [done | split; [done |]].
  intros j rj Hj Hrj. apply Hmin; [| done].
  by rewrite list_lookup_fmap, Hj.
Qed.

Lemma zero_scratch_any r :
  Survivor.zero_scratch r = true -> Survivor.any r = true.
Proof.
  unfold Survivor.zero_scratch, Survivor.any.
  by intros [? _]%andb_true_iff.
Qed.

Lemma plan_zero_scratch_any p :
  Survivor.plan_zero_scratch p = true -> Survivor.plan_any p = true.
Proof.
  unfold Survivor.plan_zero_scratch, Survivor.plan_any.
  by intros [? _]%andb_true_iff.
Qed.

(** With determinism required and one candidate without a failure, the call
    of [BestCudnnConvAlgorithm] on two candidates, the slower one first. *)
Lemma BestCudnnConvAlgorithm_deterministic_witness :
  let results := [candidate 1 (ms 10) 0; candidate 2 (ms 5) 0] in
  (exists r, r ∈ results /\ AutotuneResult.has_failure r = false)
  /\ exists out k r,
       BestCudnnConvAlgorithm nanoseconds true results no_algorithm
       = Some (OK, out)
       /\ first_in_order Survivor.any results k r
       /\ holds_algorithm (algorithm_ out) r.
Proof.
  intros results.
  assert (H : exists r, r ∈ results /\ AutotuneResult.has_failure r = false).
  { exists (candidate 1 (ms 10) 0).
    split; [apply list_elem_of_here | reflexivity]. }
  split; [exact H |].
  destruct (BestCudnnConvAlgorithm_deterministic nanoseconds results
              no_algorithm H) as (out & k & r & Hrun & Hk & Hout & _).
  exists out, k, r. done.
Defined.

(** What the two indices of [BestCudnnConvExecutionPlan] have to do with
    each other.  Each is [-1] or the position of a candidate without a
    failure (with zero scratch, for the second).  When the no-scratch index
    is set, so is the primary one, the primary candidate is not slower, on
    equal run times it is not later in the input, and when the primary
    candidate itself needs no scratch the two indices are equal. *)
Theorem BestCudnnConvExecutionPlan_indices_related
    (FromDurationProto : Duration -> Z)
    (plans : list AutotuneExecutionPlanResult.t) (idx0 idx_no_scratch0 : Z) :
  Z.of_nat (length plans) <= INT_MAX ->
  exists st idx idx_no_scratch,
    BestCudnnConvExecutionPlan FromDurationProto plans idx0 idx_no_scratch0
    = Some (st, idx, idx_no_scratch)
    /\ -1 <= idx < Z.of_nat (length plans)
    /\ -1 <= idx_no_scratch < Z.of_nat (length plans)
    /\ (idx <> -1 ->
        exists p, span_at plans idx = Some p
                  /\ AutotuneExecutionPlanResult.has_failure p = false
                  /\ (AutotuneExecutionPlanResult.scratch_bytes p = 0 ->
                      idx_no_scratch = idx))
    /\ (idx_no_scratch <> -1 ->
        exists p pn,
          span_at plans idx = Some p
          /\ span_at plans idx_no_scratch = Some pn
          /\ AutotuneExecutionPlanResult.has_failure pn = false
          /\ AutotuneExecutionPlanResult.scratch_bytes pn = 0
          /\ FromDurationProto (AutotuneExecutionPlanResult.run_time p)
             <= FromDurationProto (AutotuneExecutionPlanResult.run_time pn)
          /\ (FromDurationProto (AutotuneExecutionPlanResult.run_time p)
              = FromDurationProto (AutotuneExecutionPlanResult.run_time pn)
              -> idx <= idx_no_scratch)).
Proof.
  intros Hmax.
  destruct (BestCudnnConvExecutionPlan_spec FromDurationProto plans
              idx0 idx_no_scratch0 Hmax)
    as (st & idx & ns & Hrun & Hidx & Hns & _).
  exists st, idx, ns. split; [exact Hrun |].
  assert (Hb1 : -1 <= idx < Z.of_nat (length plans)).
  { destruct Hidx as [[-> _] | (k & p & -> & Hk & _)]; [lia |].
    apply lookup_lt_Some in Hk. lia. }
  assert (Hb2 : -1 <= ns < Z.of_nat (length plans)).
  { destruct Hns as [[-> _] | (k & p & -> & Hk & _)]; [lia |].
    apply lookup_lt_Some in Hk. lia. }
  split; [exact Hb1 |]. split; [exact Hb2 |]. split.
  - intros Hne. destruct Hidx as [[-> _] | (k & p & -> & Hk)]; [done |].
    exists p. rewrite span_at_of_nat. pose proof Hk as (Hlk & Hok & _).
    split; [done |]. split.
    { unfold Survivor.plan_any in Hok. by apply negb_true_iff in Hok. }
    intros Hz.
    assert (Survivor.plan_zero_scratch p = true) as Hpz.
    { unfold Survivor.plan_zero_scratch. unfold Survivor.plan_any in Hok.
      rewrite Hok, Hz. done. }
    destruct Hns as [[_ Hnone] | (kn & pn & -> & Hkn)].
    + apply list_elem_of_lookup_2 in Hlk. by rewrite (Hnone _ Hlk) in Hpz.
    + pose proof (first_fastest_subset _ _ _ _ _ _
                    plan_zero_scratch_any Hk Hpz) as Hk'.
      by destruct (first_fastest_unique _ _ _ _ _ _ _ Hk' Hkn) as [-> _].
  - intros Hne. destruct Hns as [[-> _] | (kn & pn & -> & Hkn)]; [done |].
    pose proof Hkn as (Hlkn & Hokn & _).
    apply andb_true_iff in Hokn as [Hf Hz].
    destruct Hidx as [[_ Hnone] | (k & p & -> & Hk)].
    + apply list_elem_of_lookup_2 in Hlkn. specialize (Hnone _ Hlkn).
      unfold Survivor.plan_any in Hnone. by rewrite Hf in Hnone.
    + pose proof Hk as (Hlk & _ & Hmin).
      exists p, pn. rewrite !span_at_of_nat.
      destruct (Hmin kn pn Hlkn) as [Hle Hlt]; [exact Hf |].
      split; [done |]. split; [done |].
      split; [by apply negb_true_iff in Hf |].
      split; [by apply Z.eqb_eq in Hz |]. split; [exact Hle |].
      intros Heq. destruct (decide (kn < k)%nat) as [Hlt' | ?]; [| lia].
      specialize (Hlt Hlt'). simpl in *. lia.
Qed.

(** A fast candidate that needs scratch after a slower one that needs
    none: the indices are 1 and 0. *)
Lemma BestCudnnConvExecutionPlan_indices_related_witness :
  let plans := [plan_candidate (ms 8) 0; plan_candidate (ms 5) 128] in
  Z.of_nat (length plans) <= INT_MAX
  /\ BestCudnnConvExecutionPlan nanoseconds plans 0 0 = Some (OK, 1, 0)
  /\ exists st idx idx_no_scratch,
       BestCudnnConvExecutionPlan nanoseconds plans 0 0
       = Some (st, idx, idx_no_scratch)
       /\ -1 <= idx < Z.of_nat (length plans)
       /\ -1 <= idx_no_scratch < Z.of_nat (length plans).
Proof.
  intros plans.
  assert (H : Z.of_nat (length plans) <= INT_MAX) by (vm_compute; discriminate).
  split; [exact H |]. split; [reflexivity |].
  destruct (BestCudnnConvExecutionPlan_indices_related nanoseconds plans 0 0 H)
    as (st & idx & ns & Hrun & Hb1 & Hb2 & _).
  exists st, idx, ns. done.
Defined.

(** When the candidate [BestCudnnConvAlgorithm] takes as primary needs no
    scratch itself, the no-scratch slot holds the same algorithm, in either
    mode. *)
Theorem BestCudnnConvAlgorithm_zero_scratch_primary
    (FromDurationProto : Duration -> Z) (RequireCuDNNDeterminism : bool)
    (results : list AutotuneResult.t) (algo : AlgorithmConfig) :
  (exists r, r ∈ results /\ AutotuneResult.has_failure r = false) ->
  exists out k r,
    BestCudnnConvAlgorithm FromDurationProto RequireCuDNNDeterminism
                           results algo = Some (OK, out)
    /\ first_fastest (mode_time FromDurationProto RequireCuDNNDeterminism)
                     Survivor.any results k r
    /\ holds_algorithm (algorithm_ out) r
    /\ (AutotuneResult.scratch_bytes r = 0 ->
        algorithm_no_scratch_ out = algorithm_ out).
Proof.
  intros (r0 & Hin0 & Hr0).
  destruct (BestCudnnConvAlgorithm_survivor FromDurationProto
              RequireCuDNNDeterminism results algo)
    as (out & k & r & Hrun & Hk & Hout & Hns).
  { apply not_none_ok. exists r0. split; [done |].
    unfold Survivor.any. by rewrite Hr0. }
  exists out, k, r. split; [exact Hrun |]. split; [exact Hk |].
  split; [exact Hout |]. intros Hz.
  pose proof Hk as (Hlk & Hok & _).
  assert (Survivor.zero_scratch r = true) as Hrz.
  { unfold Survivor.zero_scratch. unfold Survivor.any in Hok.
    rewrite Hok, Hz. done. }
  destruct Hns as [[Hnone _] | (kn & rn & Hkn & Hrn)].
  - apply list_elem_of_lookup_2 in Hlk. by rewrite (Hnone _ Hlk) in Hrz.
  - pose proof (first_fastest_subset _ _ _ _ _ _ zero_scratch_any Hk Hrz)
      as Hk'.
    destruct (first_fastest_unique _ _ _ _ _ _ _ Hk' Hkn) as [_ <-].
    unfold holds_algorithm in *. congruence.
Qed.

Lemma BestCudnnConvAlgorithm_zero_scratch_primary_witness :
  let results := [candidate 1 (ms 8) 128; candidate 2 (ms 5) 0] in
  (exists r, r ∈ results /\ AutotuneResult.has_failure r = false)
  /\ BestCudnnConvAlgorithm nanoseconds false results no_algorithm
     = Some (OK, {| algorithm_ := Some {| algo_id := 2; tensor_ops := false |};
                    algorithm_no_scratch_ :=
                      Some {| algo_id := 2; tensor_ops := false |} |})
  /\ exists out k r,
       BestCudnnConvAlgorithm nanoseconds false results no_algorithm
       = Some (OK, out)
       /\ first_fastest (mode_time nanoseconds false) Survivor.any results k r
       /\ holds_algorithm (algorithm_ out) r
       /\ (AutotuneResult.scratch_bytes r = 0 ->
           algorithm_no_scratch_ out = algorithm_ out).
Proof.
  intros results.
  assert (H : exists r, r ∈ results /\ AutotuneResult.has_failure r = false).
  { exists (candidate 1 (ms 8) 128).
    split; [apply list_elem_of_here | reflexivity]. }
  split; [exact H |]. split; [reflexivity |].
  exact (BestCudnnConvAlgorithm_zero_scratch_primary nanoseconds false
           results no_algorithm H).
Defined.

(** With determinism not required, the two selectors make the same choice
    on the same candidates: the index [BestCudnnConvExecutionPlan] returns
    is the position of the candidate whose algorithm
    [BestCudnnConvAlgorithm] writes, for the primary and for the no-scratch
    slot; the latter is [-1] exactly when [algorithm_no_scratch] is left
    unset. *)
Theorem selectors_agree_without_determinism
    (FromDurationProto : Duration -> Z)
    (results : list AutotuneResult.t) (algo : AlgorithmConfig)
    (idx0 idx_no_scratch0 : Z) :
  (exists r, r ∈ results /\ AutotuneResult.has_failure r = false) ->
  Z.of_nat (length results) <= INT_MAX ->
  exists out idx idx_no_scratch r,
    BestCudnnConvAlgorithm FromDurationProto false results algo
    = Some (OK, out)
    /\ BestCudnnConvExecutionPlan FromDurationProto (plan_of <$> results)
                                  idx0 idx_no_scratch0
       = Some (OK, idx, idx_no_scratch)
    /\ span_at results idx = Some r
    /\ holds_algorithm (algorithm_ out) r
    /\ ((idx_no_scratch = -1
         /\ algorithm_no_scratch_ out = algorithm_no_scratch_ algo)
        \/ (exists rn, span_at results idx_no_scratch = Some rn
                       /\ holds_algorithm (algorithm_no_scratch_ out) rn)).
Proof.
  intros (r0 & Hin0 & Hr0) Hmax.
  assert (Hsome : ~ none_ok Survivor.any results).
  { apply not_none_ok. exists r0. split; [done |].
    unfold Survivor.any. by rewrite Hr0. }
  destruct (BestCudnnConvAlgorithm_survivor FromDurationProto false
              results algo Hsome) as (out & k & r & Hrun & Hk & Hout & Hns).
  destruct (BestCudnnConvExecutionPlan_spec FromDurationProto
              (plan_of <$> results) idx0 idx_no_scratch0)
    as (st & idx & ns & Hprun & Hidx & Hpns & Hst).
  { by rewrite length_fmap. }
  assert (Hback : forall ok ok' kp p,
    (forall a, ok' (plan_of a) = ok a) ->
    first_fastest
      (fun p => FromDurationProto (AutotuneExecutionPlanResult.run_time p))
      ok' (plan_of <$> results) kp p ->
    exists r', first_fastest (mode_time FromDurationProto false) ok
                             results kp r').
  { intros ok ok' kp p Hok Hp.
    apply first_fastest_fmap in Hp as (r' & _ & Hr'). exists r'.
    eapply first_fastest_ext; [| exact Hr']. intros a. apply Hok. }
  assert (Hnone : forall ok ok',
    (forall a, ok' (plan_of a) = ok a) ->
    none_ok ok' (plan_of <$> results) -> none_ok ok results).
  { intros ok ok' Hok Hn a Ha. rewrite <- Hok. apply Hn.
    by apply list_elem_of_fmap_2. }
  destruct Hidx as [[-> Hn] | (kp & p & -> & Hkp)].
  { exfalso. apply Hsome. by apply (Hnone _ Survivor.plan_any). }
  destruct (Hback Survivor.any _ _ _ (fun a => eq_refl) Hkp) as (r' & Hr').
  destruct (first_fastest_unique _ _ _ _ _ _ _ Hk Hr') as [<- <-].
  destruct (Z.eqb_spec (Z.of_nat k) (-1)); [lia |]. subst st.
  exists out, (Z.of_nat k), ns, r. split; [exact Hrun |].
  split; [exact Hprun |]. rewrite span_at_of_nat.
  split; [apply Hk |]. split; [exact Hout |].
  destruct Hpns as [[-> Hn] | (kn & pn & -> & Hkn)].
  - left. split; [done |].
    apply (Hnone Survivor.zero_scratch) in Hn; [| by intros a].
    destruct Hns as [[_ Heq] | (kn & rn & (Hl & Hok & _) & _)]; [done |].
    apply list_elem_of_lookup_2 in Hl. by rewrite (Hn _ Hl) in Hok.
  - right.
    destruct (Hback Survivor.zero_scratch _ _ _ (fun a => eq_refl) Hkn)
      as (rn' & Hrn').
    destruct Hns as [[Hn _] | (kn' & rn & Hkn' & Hrn)].
    + destruct Hrn' as (Hl & Hok & _).
      apply list_elem_of_lookup_2 in Hl. by rewrite (Hn _ Hl) in Hok.
    + destruct (first_fastest_unique _ _ _ _ _ _ _ Hkn' Hrn') as [<- <-].
      exists rn. rewrite span_at_of_nat. split; [apply Hkn' | exact Hrn].
Qed.

Lemma selectors_agree_without_determinism_witness :
  let results := [candidate 4 (ms 8) 0; failed (candidate 5 (ms 1) 0);
                  candidate 6 (ms 5) 128] in
  ((exists r, r ∈ results /\ AutotuneResult.has_failure r = false)
   /\ Z.of_nat (length results) <= INT_MAX)
  /\ BestCudnnConvExecutionPlan nanoseconds (plan_of <$> results) 0 0
     = Some (OK, 2, 0)
  /\ exists out idx idx_no_scratch r,
       BestCudnnConvAlgorithm nanoseconds false results no_algorithm
       = Some (OK, out)
       /\ BestCudnnConvExecutionPlan nanoseconds (plan_of <$> results) 0 0
          = Some (OK, idx, idx_no_scratch)
       /\ span_at results idx = Some r
       /\ holds_algorithm (algorithm_ out) r.
Proof.
  intros results.
  assert (H1 : exists r, r ∈ results /\ AutotuneResult.has_failure r = false).
  { exists (candidate 4 (ms 8) 0).
    split; [apply list_elem_of_here | reflexivity]. }
  assert (H2 : Z.of_nat (length results) <= INT_MAX)
    by (vm_compute; discriminate).
  split; [done |]. split; [reflexivity |].
  destruct (selectors_agree_without_determinism nanoseconds results
              no_algorithm 0 0 H1 H2)
    as (out & idx & ns & r & Ha & Hp & Hr & Hout & _).
  exists out, idx, ns, r. done.
Defined.

(** A candidate that carries a failure has no influence on
    [BestCudnnConvAlgorithm], wherever it stands in the input. *)
Lemma BestCudnnConvAlgorithm_ignores_failed
    (FromDurationProto : Duration -> Z) (RequireCuDNNDeterminism : bool)
    (l1 l2 : list AutotuneResult.t) (x : AutotuneResult.t)
    (algo : AlgorithmConfig) :
  AutotuneResult.has_failure x = true ->
  BestCudnnConvAlgorithm FromDurationProto RequireCuDNNDeterminism
                         (l1 ++ x :: l2) algo
  = BestCudnnConvAlgorithm FromDurationProto RequireCuDNNDeterminism
                           (l1 ++ l2) algo.
Proof.
  intros Hx. unfold BestCudnnConvAlgorithm.
  rewrite !List.filter_app. cbn [List.filter]. rewrite Hx. done.
Qed.

(** [CheckRedzones] and the selector together: a result on which an enabled
    redzone check found a modified redzone is marked as failed, with kind
    [REDZONE_MODIFIED] and the address of the buffer, and from then on
    [BestCudnnConvAlgorithm] chooses as if that candidate were not there. *)
Theorem redzone_modified_candidate_is_never_selected
    (FromDurationProto : Duration -> Z) (RequireCuDNNDeterminism : bool)
    (disable_rz_str : option string) (status : RedzoneCheckStatus)
    (r : AutotuneResult.t) (p : Process)
    (l1 l2 : list AutotuneResult.t) (algo : AlgorithmConfig) :
  RedzoneCheckDisabled disable_rz_str = false ->
  rz_ok status = false ->
  let r' := fst (CheckRedzones disable_rz_str (ValueOrDie status) r p) in
  AutotuneResult.failure r'
  = Some {| kind := REDZONE_MODIFIED; msg := RedzoneFailureMsg status;
            buffer_address := user_buffer_address status |}
  /\ AutotuneResult.conv r' = AutotuneResult.conv r
  /\ BestCudnnConvAlgorithm FromDurationProto RequireCuDNNDeterminism
                            (l1 ++ r' :: l2) algo
     = BestCudnnConvAlgorithm FromDurationProto RequireCuDNNDeterminism
                              (l1 ++ l2) algo.
Proof.
  intros Hen Hbad r'. subst r'. unfold CheckRedzones.
  rewrite Hen, Hbad. simpl. split; [done |]. split; [done |].
  by apply BestCudnnConvAlgorithm_ignores_failed.
Qed.

Lemma redzone_modified_candidate_is_never_selected_witness :
  let status := {| rz_ok := false; RedzoneFailureMsg := "redzone";
                   user_buffer_address := 4096 |} in
  let r' := fst (CheckRedzones None (ValueOrDie status)
                               (candidate 5 (ms 1) 0) process_start) in
  (RedzoneCheckDisabled None = false /\ rz_ok status = false)
  /\ BestCudnnConvAlgorithm nanoseconds false
       ([candidate 4 (ms 8) 0] ++ r' :: []) no_algorithm
     = Some (OK, {| algorithm_ := Some {| algo_id := 4; tensor_ops := false |};
                    algorithm_no_scratch_ :=
                      Some {| algo_id := 4; tensor_ops := false |} |})
  /\ AutotuneResult.failure r'
     = Some {| kind := REDZONE_MODIFIED; msg := "redzone";
               buffer_address := 4096 |}.
Proof.
  intros status r'. split; [split; reflexivity |]. split; [reflexivity |].
  exact (proj1 (redzone_modified_candidate_is_never_selected nanoseconds false
                  None status (candidate 5 (ms 1) 0) process_start
                  [candidate 4 (ms 8) 0] [] no_algorithm
                  eq_refl eq_refl)).
Defined.

(** ** Part XVI.  More about the graph-exec cache *)

Lemma length_removelast_pred {A} (l : list A) :
  length (removelast l) = pred (length l).
Proof.
  induction l as [| a l IH]; [done |]. destruct l as [| b l]; [done |].
  change (removelast (a :: b :: l)) with (a :: removelast (b :: l)).
  change (length (a :: removelast (b :: l)))
    with (S (length (removelast (b :: l)))).
  by rewrite IH.
Qed.

Lemma update_cache_graphs key g c :
  gpu_exec_graphs_ (update_cache key g c)
  = if over_capacity (push_front g c)
    then removelast ((next_node_ c, g) :: gpu_exec_graphs_ c)
    else (next_node_ c, g) :: gpu_exec_graphs_ c.
Proof.
  unfold update_cache. destruct (over_capacity (push_front g c)); [| done].
  unfold evict_back, destroy_back.
  by destruct (back (push_front g c)) as [[? ?] |].
Qed.

(** The size after [update_cache]: one more entry while the capacity, read
    as unsigned, admits it, and otherwise the size it had - also for a key
    that is already cached, and also when the cache is already above a
    capacity that was lowered: one call evicts one entry. *)
Theorem update_cache_size (key g : Z) (c : MutexedGraphExecCache) :
  get_current_cache_size (update_cache key g c)
  = if to_uint64 (cache_size_ c) <? Z.of_nat (S (get_current_cache_size c))
    then get_current_cache_size c
    else S (get_current_cache_size c).
Proof.
  unfold get_current_cache_size. rewrite update_cache_graphs.
  unfold over_capacity. simpl gpu_exec_graphs_. simpl cache_size_.
  change (length ((next_node_ c, g) :: gpu_exec_graphs_ c))
    with (S (length (gpu_exec_graphs_ c))).
  destruct (to_uint64 (cache_size_ c) <? Z.of_nat (S (length (gpu_exec_graphs_ c))));
    [| done].
  by rewrite length_removelast_pred.
Qed.

Lemma node_value_filter_shorter (l : list (nat * Z)) n g :
  node_value l n = Some g ->
  (length (List.filter (fun nv : nat * Z => negb (Z.eqb (snd nv) g)) l)
   < length l)%nat.
Proof.
  induction l as [| [m v] l IH]; [done |]. simpl.
  destruct (Nat.eqb m n).
  - intros [= ->]. rewrite Z.eqb_refl. simpl.
    pose proof (List.filter_length_le
                  (fun nv : nat * Z => negb (Z.eqb (snd nv) g)) l). lia.
  - intros H. specialize (IH H). destruct (negb (v =? g)); simpl; lia.
Qed.

Lemma get_exec_graph_size_capacity key c v c' :
  get_exec_graph key c = Some (v, c') ->
  cache_size_ c' = cache_size_ c
  /\ driver_calls_ c' = driver_calls_ c
  /\ (get_current_cache_size c' <= get_current_cache_size c)%nat.
Proof.
  intros Hget.
  destruct (gpu_key_to_exec_graphs_map_ c !! key) as [pos |] eqn:Hkey.
  - destruct (deref c pos) as [g |] eqn:Hderef.
    + rewrite (get_exec_graph_live _ _ _ _ Hkey Hderef) in Hget.
      injection Hget as <- <-. split; [done |]. split; [done |].
      unfold get_current_cache_size. simpl.
      destruct pos as [n |]; [| done]. simpl in Hderef.
      pose proof (node_value_filter_shorter _ _ _ Hderef). lia.
    + rewrite get_exec_graph_stale in Hget; [done |]. by exists pos.
  - rewrite (get_exec_graph_unindexed _ _ Hkey) in Hget.
    by injection Hget as <- <-.
Qed.

(** What a defined [get_exec_graph] never does: it erases no key from the
    index, releases no graph, leaves the capacity alone and does not let
    the list grow; and for a key that is not in the index it returns
    [nullptr] and changes nothing. *)
Theorem get_exec_graph_defined_effects
    (key : Z) (c : MutexedGraphExecCache) (v : Z) (c' : MutexedGraphExecCache) :
  get_exec_graph key c = Some (v, c') ->
  (forall k, is_Some (gpu_key_to_exec_graphs_map_ c !! k) ->
             is_Some (gpu_key_to_exec_graphs_map_ c' !! k))
  /\ driver_calls_ c' = driver_calls_ c
  /\ cache_size_ c' = cache_size_ c
  /\ (get_current_cache_size c' <= get_current_cache_size c)%nat
  /\ (gpu_key_to_exec_graphs_map_ c !! key = None -> v = nullptr /\ c' = c).
Proof.
  intros Hget. split; [by eapply get_exec_graph_keeps_index |].
  destruct (get_exec_graph_size_capacity _ _ _ _ Hget) as (Hcap & Hdc & Hsz).
  split; [exact Hdc |]. split; [exact Hcap |]. split; [exact Hsz |].
  intros Hkey. rewrite (get_exec_graph_unindexed _ _ Hkey) in Hget.
  by injection Hget as <- <-.
Qed.

Lemma get_exec_graph_defined_effects_witness :
  get_exec_graph 20 cache_after_eviction
  = Some (200, index_begin 20
                 (push_front 200 (list_remove 200 cache_after_eviction)))
  /\ get_current_cache_size
       (index_begin 20 (push_front 200 (list_remove 200 cache_after_eviction)))
     = 1%nat
  /\ driver_calls_
       (index_begin 20 (push_front 200 (list_remove 200 cache_after_eviction)))
     = driver_calls_ cache_after_eviction.
Proof.
  assert (H : get_exec_graph 20 cache_after_eviction
              = Some (200, index_begin 20
                   (push_front 200 (list_remove 200 cache_after_eviction))))
    by reflexivity.
  split; [exact H |]. split; [reflexivity |].
  exact (proj1 (proj2 (get_exec_graph_defined_effects _ _ _ _ H))).
Defined.

(** From an empty cache whose capacity was set once, no sequence of
    [update_cache] and defined [get_exec_graph] calls takes the list above
    the capacity (read as unsigned). *)
Theorem cache_never_exceeds_capacity
    (cache_size : Z) (ops : list CacheOp) (c : MutexedGraphExecCache) :
  cache_run ops (set_cache_size cache_size empty_cache) = Some c ->
  cache_size_ c = cache_size
  /\ Z.of_nat (get_current_cache_size c) <= to_uint64 cache_size.
Proof.
  assert (Hgen : forall ops c0 c,
    cache_size_ c0 = cache_size ->
    Z.of_nat (get_current_cache_size c0) <= to_uint64 cache_size ->
    cache_run ops c0 = Some c ->
    cache_size_ c = cache_size
    /\ Z.of_nat (get_current_cache_size c) <= to_uint64 cache_size).
  { clear ops c. induction ops as [| o ops IH]; intros c0 c Hcap Hsz Hrun;
      simpl in Hrun.
    - by injection Hrun as <-.
    - destruct (cache_step c0 o) as [c1 |] eqn:Hstep; [| done].
      apply (IH c1 c); [| | done]; destruct o as [key g | key];
        simpl in Hstep.
      + injection Hstep as <-. unfold update_cache, index_begin. simpl.
        destruct (over_capacity (push_front g c0)); [| done].
        unfold evict_back, destroy_back.
        by destruct (back (push_front g c0)) as [[? ?] |].
      + destruct (get_exec_graph key c0) as [[v c2] |] eqn:Hget; [| done].
        injection Hstep as <-.
        destruct (get_exec_graph_size_capacity _ _ _ _ Hget) as (-> & _).
        done.
      + injection Hstep as <-. unfold get_current_cache_size in *.
        rewrite update_cache_graphs. unfold over_capacity.
        simpl cache_size_. rewrite Hcap.
        change (gpu_exec_graphs_ (push_front g c0))
          with ((next_node_ c0, g) :: gpu_exec_graphs_ c0).
        destruct (Z.ltb_spec (to_uint64 cache_size)
                    (Z.of_nat (length ((next_node_ c0, g)
                                         :: gpu_exec_graphs_ c0)))) as [Hov | Hok].
        * rewrite length_removelast_pred. simpl. lia.
        * exact Hok.
      + destruct (get_exec_graph key c0) as [[v c2] |] eqn:Hget; [| done].
        injection Hstep as <-.
        destruct (get_exec_graph_size_capacity _ _ _ _ Hget) as (_ & _ & Hle).
        lia. }
  intros Hrun. apply (Hgen ops (set_cache_size cache_size empty_cache) c);
    [done | | done].
  unfold get_current_cache_size, to_uint64. simpl.
  pose proof (Z.mod_pos_bound cache_size (2 ^ 64)). lia.
Qed.

Lemma cache_never_exceeds_capacity_witness :
  cache_run [Put 10 100; Put 20 200; Get 20; Put 30 300]
            (set_cache_size 2 empty_cache)
  = Some (update_cache 30 300
            (index_begin 20 (push_front 200 (list_remove 200
               (update_cache 20 200
                  (update_cache 10 100 (set_cache_size 2 empty_cache)))))))
  /\ Z.of_nat (get_current_cache_size
       (update_cache 30 300
            (index_begin 20 (push_front 200 (list_remove 200
               (update_cache 20 200
                  (update_cache 10 100 (set_cache_size 2 empty_cache))))))))
     <= to_uint64 2.
Proof.
  assert (H : cache_run [Put 10 100; Put 20 200; Get 20; Put 30 300]
            (set_cache_size 2 empty_cache)
  = Some (update_cache 30 300
            (index_begin 20 (push_front 200 (list_remove 200
               (update_cache 20 200
                  (update_cache 10 100 (set_cache_size 2 empty_cache))))))))
    by reflexivity.
  split; [exact H |].
  exact (proj2 (cache_never_exceeds_capacity 2 _ _ H)).
Defined.

Lemma update_cache_index key g c :
  gpu_key_to_exec_graphs_map_ (update_cache key g c)
  = <[key := list_begin (update_cache key g c)]>
      (gpu_key_to_exec_graphs_map_ c).
Proof.
  unfold update_cache. destruct (over_capacity (push_front g c)); [| done].
  unfold evict_back, destroy_back.
  by destruct (back (push_front g c)) as [[? ?] |].
Qed.

(** [update_cache] followed by [get_exec_graph] on the same key returns the
    graph just stored, provided the new entry is not evicted on the spot:
    the capacity (as unsigned) is at least 1, or the list was not empty. *)
Theorem update_cache_then_get_exec_graph
    (key g : Z) (c : MutexedGraphExecCache) :
  1 <= to_uint64 (cache_size_ c) \/ gpu_exec_graphs_ c <> [] ->
  exists c', get_exec_graph key (update_cache key g c) = Some (g, c')
             /\ gpu_key_to_exec_graphs_map_ c' !! key
                = Some (It (next_node_ (update_cache key g c))).
Proof.
  intros Hroom.
  assert (exists rest, gpu_exec_graphs_ (update_cache key g c)
                       = (next_node_ c, g) :: rest) as [rest Hl].
  { rewrite update_cache_graphs.
    destruct (over_capacity (push_front g c)) eqn:Hover; [| by eexists].
    destruct (gpu_exec_graphs_ c) as [| a l] eqn:Hc.
    - exfalso. unfold over_capacity in Hover. simpl in Hover. rewrite Hc in Hover.
      apply Z.ltb_lt in Hover. simpl in Hover. destruct Hroom; [lia | done].
    - by eexists. }
  eexists. split.
  - apply get_exec_graph_live with (It (next_node_ c)).
    + rewrite update_cache_index, lookup_insert_eq.
      unfold list_begin. by rewrite Hl.
    + unfold deref. rewrite Hl. simpl. by rewrite Nat.eqb_refl.
  - simpl. by rewrite lookup_insert_eq.
Qed.

Lemma update_cache_then_get_exec_graph_witness :
  (1 <= to_uint64 (cache_size_ cache_one_entry)
   \/ gpu_exec_graphs_ cache_one_entry <> [])
  /\ exists c', get_exec_graph 20 (update_cache 20 200 cache_one_entry)
                = Some (200, c')
                /\ gpu_key_to_exec_graphs_map_ c' !! 20
                   = Some (It (next_node_ (update_cache 20 200 cache_one_entry))).
Proof.
  assert (H : 1 <= to_uint64 (cache_size_ cache_one_entry)
              \/ gpu_exec_graphs_ cache_one_entry <> [])
    by (left; vm_compute; discriminate).
  split; [exact H |].
  exact (update_cache_then_get_exec_graph 20 200 cache_one_entry H).
Defined.

(** Capacity zero, which is what [cache_size_] is initialised to, on an
    empty list: [update_cache] releases the graph it was just given, leaves
    the list empty and indexes the key at [end()], so that a following
    [get_exec_graph] on that key dereferences [end()]. *)
Theorem update_cache_with_zero_capacity
    (key g : Z) (c : MutexedGraphExecCache) :
  to_uint64 (cache_size_ c) = 0 -> gpu_exec_graphs_ c = [] ->
  gpu_exec_graphs_ (update_cache key g c) = []
  /\ driver_calls_ (update_cache key g c)
     = driver_calls_ c
       ++ [{| call_context := gpu_context_ c; call_exec := g |}]
  /\ gpu_key_to_exec_graphs_map_ (update_cache key g c) !! key = Some End
  /\ get_exec_graph key (update_cache key g c) = None.
Proof.
  intros Hcap Hl.
  assert (Hover : over_capacity (push_front g c) = true).
  { unfold over_capacity. simpl. rewrite Hcap, Hl. done. }
  assert (Hc' : update_cache key g c
                = index_begin key (evict_back (push_front g c))).
  { unfold update_cache. by rewrite Hover. }
  assert (Hback : back (push_front g c) = Some (next_node_ c, g)).
  { unfold back. simpl. by rewrite Hl. }
  assert (Hlist : gpu_exec_graphs_ (update_cache key g c) = []).
  { rewrite update_cache_graphs, Hover, Hl. done. }
  assert (Hkey : gpu_key_to_exec_graphs_map_ (update_cache key g c) !! key
                 = Some End).
  { rewrite update_cache_index, lookup_insert_eq.
    unfold list_begin. by rewrite Hlist. }
  split; [exact Hlist |]. split.
  { rewrite Hc'. unfold evict_back, destroy_back. by rewrite Hback. }
  split; [exact Hkey |].
  unfold get_exec_graph. by rewrite Hkey.
Qed.

Lemma update_cache_with_zero_capacity_witness :
  (to_uint64 (cache_size_ empty_cache) = 0 /\ gpu_exec_graphs_ empty_cache = [])
  /\ gpu_exec_graphs_ (update_cache 10 100 empty_cache) = []
  /\ driver_calls_ (update_cache 10 100 empty_cache)
     = [{| call_context := nullptr; call_exec := 100 |}]
  /\ get_exec_graph 10 (update_cache 10 100 empty_cache) = None.
Proof.
  split; [split; reflexivity |].
  destruct (update_cache_with_zero_capacity 10 100 empty_cache eq_refl eq_refl)
    as (H1 & H2 & _ & H4).
  split; [exact H1 |]. split; [exact H2 | exact H4].
Defined.

(** A negative capacity, compared as unsigned, is a capacity above any size
    the list can have: [update_cache] then never evicts. *)
Theorem update_cache_with_negative_capacity
    (key g : Z) (c : MutexedGraphExecCache) :
  - 2 ^ 63 <= cache_size_ c < 0 ->
  Z.of_nat (length (gpu_exec_graphs_ c)) < 2 ^ 63 ->
  gpu_exec_graphs_ (update_cache key g c)
  = (next_node_ c, g) :: gpu_exec_graphs_ c
  /\ driver_calls_ (update_cache key g c) = driver_calls_ c.
Proof.
  intros Hneg Hlen.
  assert (Hover : over_capacity (push_front g c) = false).
  { unfold over_capacity, to_uint64. simpl cache_size_.
    apply Z.ltb_ge.
    rewrite <- (Z_mod_plus_full (cache_size_ c) 1 (2 ^ 64)).
    rewrite Z.mod_small by lia.
    change (length (gpu_exec_graphs_ (push_front g c)))
      with (S (length (gpu_exec_graphs_ c))). lia. }
  unfold update_cache. rewrite Hover. done.
Qed.

Lemma update_cache_with_negative_capacity_witness :
  let c := update_cache 10 100 (set_cache_size (-1) empty_cache) in
  (- 2 ^ 63 <= cache_size_ c < 0
   /\ Z.of_nat (length (gpu_exec_graphs_ c)) < 2 ^ 63)
  /\ gpu_exec_graphs_ (update_cache 20 200 c) = [(1%nat, 200); (0%nat, 100)]
  /\ driver_calls_ (update_cache 20 200 c) = driver_calls_ c.
Proof.
  intros c.
  assert (H1 : - 2 ^ 63 <= cache_size_ c < 0) by (vm_compute; split; discriminate || reflexivity).
  assert (H2 : Z.of_nat (length (gpu_exec_graphs_ c)) < 2 ^ 63)
    by (vm_compute; reflexivity).
  split; [done |]. split; [reflexivity |].
  exact (proj2 (update_cache_with_negative_capacity 20 200 c H1 H2)).
Defined.

Lemma update_cache_driver_calls key g c :
  driver_calls_ (update_cache key g c)
  = if over_capacity (push_front g c)
    then driver_calls_ c
         ++ match last ((next_node_ c, g) :: gpu_exec_graphs_ c) with
            | Some (_, h) =>
                [{| call_context := gpu_context_ c; call_exec := h |}]
            | None => []
            end
    else driver_calls_ c.
Proof.
  unfold update_cache. destruct (over_capacity (push_front g c)); [| done].
  unfold evict_back, destroy_back, back.
  change (gpu_exec_graphs_ (push_front g c))
    with ((next_node_ c, g) :: gpu_exec_graphs_ c).
  destruct (last ((next_node_ c, g) :: gpu_exec_graphs_ c)) as [[? ?] |];
    [done |]. simpl. by rewrite app_nil_r.
Qed.

Lemma update_cache_conserves key g c :
  cached_graphs (update_cache key g c)
  ++ rev (released_graphs (update_cache key g c))
  = g :: cached_graphs c ++ rev (released_graphs c).
Proof.
  unfold cached_graphs, released_graphs.
  rewrite update_cache_graphs, update_cache_driver_calls.
  destruct (over_capacity (push_front g c)); [| done].
  destruct (last ((next_node_ c, g) :: gpu_exec_graphs_ c))
    as [[n h] |] eqn:Hlast.
  2:{ apply last_None in Hlast. done. }
  apply last_Some in Hlast as [l' Hl'].
  assert (Hv : g :: (gpu_exec_graphs_ c).*2 = l'.*2 ++ [h]).
  { change (g :: (gpu_exec_graphs_ c).*2)
      with (((next_node_ c, g) :: gpu_exec_graphs_ c).*2).
    rewrite Hl', fmap_app. done. }
  rewrite Hl', removelast_last, fmap_app, rev_app_distr.
  rewrite app_comm_cons, Hv. simpl. by rewrite <- app_assoc.
Qed.

(** The calls of a sequence of [update_cache]. *)
Lemma update_cache_sequence_conserves
    (puts : list (Z * Z)) (c : MutexedGraphExecCache) :
  let c' := fold_left (fun c kg => update_cache (fst kg) (snd kg) c) puts c in
  cached_graphs c' ++ rev (released_graphs c')
  = rev puts.*2 ++ cached_graphs c ++ rev (released_graphs c).
Proof.
  revert c. induction puts as [| [k g] puts IH]; intros c; [done |].
  simpl. rewrite IH. rewrite update_cache_conserves. simpl.
  by rewrite <- app_assoc.
Qed.

(** Nothing is lost and nothing is released twice by [update_cache]: after
    any sequence of calls on a cache that starts empty, the released graphs
    (oldest release first) followed by the graphs in the list (back to
    front) are exactly the graphs passed in, in the order they were passed.
    Eviction is therefore in order of insertion: what has been released is
    what was inserted first. *)
Theorem update_cache_releases_oldest_first
    (puts : list (Z * Z)) (c : MutexedGraphExecCache) :
  gpu_exec_graphs_ c = [] -> driver_calls_ c = [] ->
  let c' := fold_left (fun c kg => update_cache (fst kg) (snd kg) c) puts c in
  released_graphs c' ++ rev (cached_graphs c') = puts.*2
  /\ released_graphs c' = take (length (released_graphs c')) puts.*2
  /\ rev (cached_graphs c') = drop (length (released_graphs c')) puts.*2.
Proof.
  intros Hl Hd c'.
  pose proof (update_cache_sequence_conserves puts c) as H. fold c' in H.
  unfold cached_graphs at 2 in H. unfold released_graphs at 2 in H.
  rewrite Hl, Hd in H. simpl in H. rewrite app_nil_r in H.
  apply (f_equal (@rev Z)) in H.
  rewrite rev_app_distr, !rev_involutive in H.
  split; [exact H |]. rewrite <- H.
  split; [by rewrite take_app_length | by rewrite drop_app_length].
Qed.

Lemma update_cache_releases_oldest_first_witness :
  let c := set_cache_size 2 empty_cache in
  let c' := fold_left (fun c kg => update_cache (fst kg) (snd kg) c)
                      [(10, 100); (20, 200); (30, 300); (40, 400)] c in
  (gpu_exec_graphs_ c = [] /\ driver_calls_ c = [])
  /\ released_graphs c' = [100; 200]
  /\ cached_graphs c' = [400; 300]
  /\ released_graphs c' ++ rev (cached_graphs c') = [100; 200; 300; 400].
Proof.
  intros c c'. split; [split; reflexivity |].
  split; [reflexivity |]. split; [reflexivity |].
  exact (proj1 (update_cache_releases_oldest_first
                  [(10, 100); (20, 200); (30, 300); (40, 400)] c
                  eq_refl eq_refl)).
Defined.

Lemma cached_graphs_list_remove g c :
  cached_graphs (list_remove g c)
  = List.filter (fun v => negb (v =? g)) (cached_graphs c).
Proof.
  unfold cached_graphs, list_remove. simpl.
  induction (gpu_exec_graphs_ c) as [| [n v] l IH]; [done |]. simpl.
  destruct (negb (v =? g)); simpl; [f_equal |]; exact IH.
Qed.

(** A hit of [get_exec_graph]: the stored graph is returned and is now the
    first of the list, once; the other graphs keep their order; the key
    designates the new first node, so that asking again hits again. *)
Theorem get_exec_graph_hit_promotes
    (key : Z) (c : MutexedGraphExecCache) (pos : iterator) (g : Z) :
  gpu_key_to_exec_graphs_map_ c !! key = Some pos ->
  deref c pos = Some g ->
  exists c',
    get_exec_graph key c = Some (g, c')
    /\ cached_graphs c'
       = g :: List.filter (fun v => negb (v =? g)) (cached_graphs c)
    /\ list_begin c' = It (next_node_ c)
    /\ gpu_key_to_exec_graphs_map_ c'
       = <[key := It (next_node_ c)]> (gpu_key_to_exec_graphs_map_ c)
    /\ exists c'', get_exec_graph key c' = Some (g, c'').
Proof.
  intros Hkey Hderef. eexists. split; [by eapply get_exec_graph_live |].
  split.
  { change (cached_graphs (index_begin key (push_front g (list_remove g c))))
      with (g :: cached_graphs (list_remove g c)).
    by rewrite cached_graphs_list_remove. }
  split; [done |]. split; [done |].
  eexists. apply get_exec_graph_live with (It (next_node_ c)).
  - simpl. by rewrite lookup_insert_eq.
  - simpl. by rewrite Nat.eqb_refl.
Qed.

Lemma get_exec_graph_hit_promotes_witness :
  let c := fold_left (fun c kg => update_cache (fst kg) (snd kg) c)
                     [(10, 100); (20, 200); (30, 300)]
                     (set_cache_size 3 empty_cache) in
  (gpu_key_to_exec_graphs_map_ c !! 10 = Some (It 0)
   /\ deref c (It 0) = Some 100)
  /\ cached_graphs c = [300; 200; 100]
  /\ exists c', get_exec_graph 10 c = Some (100, c')
                /\ cached_graphs c' = [100; 300; 200].
Proof.
  intros c.
  assert (H1 : gpu_key_to_exec_graphs_map_ c !! 10 = Some (It 0))
    by reflexivity.
  assert (H2 : deref c (It 0) = Some 100) by reflexivity.
  split; [done |]. split; [reflexivity |].
  destruct (get_exec_graph_hit_promotes 10 c (It 0) 100 H1 H2)
    as (c' & Hget & Hl & _).
  exists c'. split; [exact Hget |]. rewrite Hl. reflexivity.
Defined.

Lemma nodes_distinct_value (l : list (nat * Z)) n v w :
  NoDup l.*1 -> (n, v) ∈ l -> (n, w) ∈ l -> v = w.
Proof.
  induction l as [| [m u] l IH]; intros Hnd Hv Hw.
  - by apply elem_of_nil in Hv.
  - simpl in Hnd. apply NoDup_cons in Hnd as [Hm Hnd].
    apply elem_of_cons in Hv as [Hv | Hv];
      apply elem_of_cons in Hw as [Hw | Hw].
    + congruence.
    + injection Hv as -> ->. exfalso. apply Hm.
      by apply (list_elem_of_fmap_2 fst) in Hw.
    + injection Hw as -> ->. exfalso. apply Hm.
      by apply (list_elem_of_fmap_2 fst) in Hv.
    + by apply IH.
Qed.

(** Two keys whose entries hold the same pointer: a hit on one of them
    erases the other's node as well ([list.remove] erases every node with
    that value), and the other key is left designating an erased node. *)
Theorem get_exec_graph_stales_keys_sharing_the_graph
    (key other : Z) (c : MutexedGraphExecCache) (n m : nat) (g : Z) :
  nodes_distinct c ->
  key <> other ->
  gpu_key_to_exec_graphs_map_ c !! key = Some (It n) ->
  gpu_key_to_exec_graphs_map_ c !! other = Some (It m) ->
  deref c (It n) = Some g ->
  deref c (It m) = Some g ->
  exists c', get_exec_graph key c = Some (g, c')
             /\ live_key c' key
             /\ stale_key c' other
             /\ get_exec_graph other c' = None.
Proof.
  intros [Hnd Hlt] Hne Hkey Hother Hn Hm.
  eexists. split; [by eapply get_exec_graph_live |].
  assert (Hstale : stale_key
            (index_begin key (push_front g (list_remove g c))) other).
  { exists (It m). split; [simpl; by rewrite lookup_insert_ne |].
    simpl in Hm. apply node_value_Some_elem in Hm. simpl.
    pose proof (Hlt _ _ Hm) as Hlt'.
    destruct (Nat.eqb_spec (next_node_ c) m) as [Heq | _]; [lia |].
    destruct (node_value
                (List.filter (fun nv : nat * Z => negb (snd nv =? g))
                             (gpu_exec_graphs_ c)) m) as [w |] eqn:Hw;
      [| done].
    apply node_value_Some_elem, list_elem_of_In, filter_In in Hw
      as [Hin Hwg].
    apply list_elem_of_In in Hin.
    pose proof (nodes_distinct_value _ _ _ _ Hnd Hin Hm) as ->.
    simpl in Hwg. by rewrite Z.eqb_refl in Hwg. }
  split; [| split; [exact Hstale | by apply get_exec_graph_stale]].
  exists (It (next_node_ c)). split; [simpl; by rewrite lookup_insert_eq |].
  simpl. rewrite Nat.eqb_refl. by eexists.
Qed.

Lemma get_exec_graph_stales_keys_sharing_the_graph_witness :
  let c := fold_left (fun c kg => update_cache (fst kg) (snd kg) c)
                     [(10, 100); (20, 100)] (set_cache_size 2 empty_cache) in
  nodes_distinct c
  /\ exists c', get_exec_graph 10 c = Some (100, c')
                /\ stale_key c' 20
                /\ get_exec_graph 20 c' = None.
Proof.
  intros c.
  assert (H : nodes_distinct c).
  { do 2 apply nodes_distinct_update_cache. exact nodes_distinct_empty. }
  split; [exact H |].
  destruct (get_exec_graph_stales_keys_sharing_the_graph 10 20 c 0 1 100 H)
    as (c' & Hget & _ & Hstale & Hnone);
    [discriminate | reflexivity | reflexivity | reflexivity | reflexivity |].
  exists c'. done.
Defined.

(** ** Part XVII.  More about the redzone checks *)

(** The check is disabled by the value "1" of the variable and by nothing
    else; disabled, [WrapRedzoneBestEffort] hands the buffer back and
    [CheckRedzones] leaves the result alone, neither logging nor touching a
    once-flag, whatever the allocator or the redzone check would say. *)
Theorem redzone_check_disabled_only_by_1 (disable_rz_str : option string) :
  (RedzoneCheckDisabled disable_rz_str = true
   <-> disable_rz_str = Some "1"%string)
  /\ (RedzoneCheckDisabled disable_rz_str = true ->
      (forall AllocateBytes buffer p,
         WrapRedzoneBestEffort disable_rz_str AllocateBytes buffer p
         = (buffer, p))
      /\ (forall rz_status (r : AutotuneResult.t) p,
            CheckRedzones disable_rz_str rz_status r p = (r, p))
      /\ (forall rz_status (r : AutotuneExecutionPlanResult.t) p,
            CheckRedzones disable_rz_str rz_status r p = (r, p))).
Proof.
  split.
  - destruct disable_rz_str as [s |]; simpl; [| split; done].
    rewrite String.eqb_eq. split; [by intros -> | by intros [= ->]].
  - intros H. unfold WrapRedzoneBestEffort, CheckRedzones. rewrite H. done.
Qed.

Lemma redzone_step_flags p c :
  rz_allocation_failure_logged (redzone_step p c)
  = rz_allocation_failure_logged p || wrap_fails c
  /\ failure_logged_AutotuneResult (redzone_step p c)
     = failure_logged_AutotuneResult p || check_fails_AutotuneResult c
  /\ failure_logged_AutotuneExecutionPlanResult (redzone_step p c)
     = failure_logged_AutotuneExecutionPlanResult p
       || check_fails_AutotuneExecutionPlanResult c.
Proof.
  destruct c as [e alloc b | e [status | m] r | e [status | m] r]; simpl;
    unfold WrapRedzoneBestEffort, CheckRedzones, call_once;
    destruct (RedzoneCheckDisabled e); simpl;
    try destruct (alloc (size b)); try destruct (rz_ok status); simpl;
    try (destruct (rz_allocation_failure_logged p) eqn:H1);
    try (destruct (failure_logged_AutotuneResult p) eqn:H2);
    try (destruct (failure_logged_AutotuneExecutionPlanResult p) eqn:H3);
    simpl; rewrite ?H1, ?H2, ?H3; done.
Qed.

Lemma once_exact_step p c :
  once_exact p -> once_exact (redzone_step p c).
Proof.
  intros [Ha Hc]. unfold once_exact, times_logged in *.
  destruct c as [e alloc b | e [status | m] r | e [status | m] r]; simpl;
    unfold WrapRedzoneBestEffort, CheckRedzones, call_once;
    destruct (RedzoneCheckDisabled e); simpl;
    try destruct (alloc (size b)); try destruct (rz_ok status); simpl;
    try (destruct (rz_allocation_failure_logged p) eqn:H1);
    try (destruct (failure_logged_AutotuneResult p) eqn:H2);
    try (destruct (failure_logged_AutotuneExecutionPlanResult p) eqn:H3);
    simpl; rewrite ?List.filter_app, ?length_app; simpl;
    rewrite ?H1, ?H2, ?H3; simpl in *; split; lia.
Qed.

Lemma redzone_run_flags calls p :
  rz_allocation_failure_logged (redzone_run calls p)
  = rz_allocation_failure_logged p || existsb wrap_fails calls
  /\ failure_logged_AutotuneResult (redzone_run calls p)
     = failure_logged_AutotuneResult p
       || existsb check_fails_AutotuneResult calls
  /\ failure_logged_AutotuneExecutionPlanResult (redzone_run calls p)
     = failure_logged_AutotuneExecutionPlanResult p
       || existsb check_fails_AutotuneExecutionPlanResult calls.
Proof.
  revert p. induction calls as [| c calls IH]; intros p; simpl.
  - by rewrite !orb_false_r.
  - destruct (IH (redzone_step p c)) as (-> & -> & ->).
    destruct (redzone_step_flags p c) as (-> & -> & ->).
    by rewrite !orb_assoc.
Qed.

Lemma once_exact_run calls p :
  once_exact p -> once_exact (redzone_run calls p).
Proof.
  revert p. induction calls as [| c calls IH]; intros p Hp; [done |].
  simpl. apply IH. by apply once_exact_step.
Qed.

(** How often each warning is in the log of a process, for every sequence
    of calls it makes: the allocation warning once if some enabled
    [WrapRedzoneBestEffort] saw its allocation fail and never otherwise; the
    check warning once for [CheckRedzones<AutotuneResult>] if an enabled
    call of it saw the check fail, and once more for
    [CheckRedzones<AutotuneExecutionPlanResult>] if an enabled call of that
    one did. *)
Theorem redzone_warnings_counted (calls : list RedzoneCall) :
  times_logged is_allocation_failed (redzone_run calls process_start)
  = b2n (existsb wrap_fails calls)
  /\ times_logged is_check_failed (redzone_run calls process_start)
     = (b2n (existsb check_fails_AutotuneResult calls)
        + b2n (existsb check_fails_AutotuneExecutionPlanResult calls))%nat.
Proof.
  destruct (once_exact_run calls process_start) as [Ha Hc]; [by split |].
  destruct (redzone_run_flags calls process_start) as (H1 & H2 & H3).
  rewrite Ha, Hc, H1, H2, H3. done.
Qed.
